(** * Bounded FIFO buffers and their rule-based state machines

    A shallow embedding of [stateful_testing.py]: the two buffer classes
    ([FIFOBuffer] and the deliberately defective [BrokenFIFOBuffer]) and the
    two Hypothesis state machines that drive them, followed by the properties
    the design document states about them.

    Python integers are unbounded, so items and capacities are [Z].  A Python
    list is a Rocq [list]; [len] is [Z.of_nat (length _)].  A method mutates
    [self], so it is a function from the object before the call to the value
    returned together with the object after the call.  A raised exception is
    the [Raise] branch of [result]. *)

From stdpp Require Import gmap list strings pretty.
From Stdlib Require Import ZArith Lia.

Local Open Scope Z_scope.

(** ** Exceptions *)

(** The formatted messages of the state machines' assertions, kept as data:
    the numbers are the ones the f-string interpolates. *)
Inductive message : Type :=
| SizeExceeds (size max_length : Z)
| SizeNegative (size : Z)
| MaxLengthNotPositive (max_length : Z).

Inductive exn : Type :=
| ValueError (msg : string)
| IndexError (msg : string)
| KeyError (key : Z)
| AssertionError (msg : message).

Inductive result (A : Type) : Type :=
| Ok (a : A)
| Raise (e : exn).

Arguments Ok {A} a.
Arguments Raise {A} e.

#[global] Instance result_ret : MRet result := fun A a => Ok a.
#[global] Instance result_bind : MBind result := fun A B f m =>
  match m with
  | Ok a => f a
  | Raise e => Raise e
  end.

(** ** The list primitives the buffers use *)

(** [len(l)] *)
Definition len (l : list Z) : Z := Z.of_nat (length l).

(** [l.pop(0)]: removes and returns the first element; [IndexError] on [[]]. *)
Definition pop0 (l : list Z) : result (Z * list Z) :=
  match l with
  | [] => Raise (IndexError "pop from empty list")
  | x :: rest => Ok (x, rest)
  end.

(** [l[0]]: [IndexError] on [[]]. *)
Definition index0 (l : list Z) : result Z :=
  match l with
  | [] => Raise (IndexError "list index out of range")
  | x :: _ => Ok x
  end.

(** [l.append(x)] *)
Definition append (l : list Z) (x : Z) : list Z := l ++ [x].

(** ** class FIFOBuffer *)

Module FIFOBuffer.

Record t : Type := Build { max_length : Z; buffer : list Z }.

Definition __init__ (max_length : Z) : result t :=
  if max_length <=? 0
  then Raise (ValueError "max_length must be positive")
  else Ok {| max_length := max_length; buffer := [] |}.

Definition add (self : t) (item : Z) : result t :=
  buf ← (if len (buffer self) >=? max_length self
         then p ← pop0 (buffer self); mret (snd p)
         else mret (buffer self));
  mret {| max_length := max_length self; buffer := append buf item |}.

Definition remove (self : t) : result (option Z * t) :=
  match buffer self with
  | [] => mret (None, self)
  | _ :: _ =>
      p ← pop0 (buffer self);
      mret (Some (fst p), {| max_length := max_length self; buffer := snd p |})
  end.

Definition peek (self : t) : result (option Z) :=
  match buffer self with
  | [] => mret None
  | _ :: _ => x ← index0 (buffer self); mret (Some x)
  end.

Definition is_empty (self : t) : bool := len (buffer self) =? 0.

Definition is_full (self : t) : bool := len (buffer self) =? max_length self.

Definition size (self : t) : Z := len (buffer self).

End FIFOBuffer.

(** ** class BrokenFIFOBuffer *)

Module BrokenFIFOBuffer.

Record t : Type := Build { max_length : Z; buffer : list Z }.

Definition __init__ (max_length : Z) : result t :=
  Ok {| max_length := max_length; buffer := [] |}.

Definition add (self : t) (item : Z) : result t :=
  mret {| max_length := max_length self; buffer := append (buffer self) item |}.

Definition remove (self : t) : result (option Z * t) :=
  p ← pop0 (buffer self);
  mret (Some (fst p), {| max_length := max_length self; buffer := snd p |}).

Definition peek (self : t) : result (option Z) :=
  x ← index0 (buffer self); mret (Some x).

Definition is_empty (self : t) : bool := len (buffer self) =? 0.

Definition is_full (self : t) : bool := len (buffer self) =? max_length self.

Definition size (self : t) : Z := len (buffer self).

End BrokenFIFOBuffer.

(** ** Direct use of a [FIFOBuffer]: a sequence of public calls *)

(** What a public method hands back to its caller. *)
Inductive value : Type :=
| VNone
| VInt (z : Z)
| VBool (b : bool).

Definition of_optional (o : option Z) : value :=
  match o with
  | Some z => VInt z
  | None => VNone
  end.

(** The public operations on an existing buffer. *)
Inductive op : Type :=
| Add (item : Z)
| Remove
| Peek
| IsEmpty
| IsFull
| Size.

Definition call (self : FIFOBuffer.t) (o : op) : result (value * FIFOBuffer.t) :=
  match o with
  | Add item => b ← FIFOBuffer.add self item; mret (VNone, b)
  | Remove => p ← FIFOBuffer.remove self; mret (of_optional (fst p), snd p)
  | Peek => x ← FIFOBuffer.peek self; mret (of_optional x, self)
  | IsEmpty => mret (VBool (FIFOBuffer.is_empty self), self)
  | IsFull => mret (VBool (FIFOBuffer.is_full self), self)
  | Size => mret (VInt (FIFOBuffer.size self), self)
  end.

(** Performs the calls in order; the answer lists, for every call, the value
    it returned and the buffer as it was left by that call. *)
Fixpoint calls (self : FIFOBuffer.t) (ops : list op)
  : result (list (value * FIFOBuffer.t)) :=
  match ops with
  | [] => mret []
  | o :: rest =>
      p ← call self o;
      tl ← calls (snd p) rest;
      mret (p :: tl)
  end.

(** [for item in items: self.add(item)] *)
Fixpoint add_all (self : FIFOBuffer.t) (items : list Z) : result FIFOBuffer.t :=
  match items with
  | [] => mret self
  | item :: rest => b ← FIFOBuffer.add self item; add_all b rest
  end.

(** [n] successive [self.remove()] calls, collecting what each returned. *)
Fixpoint remove_n (n : nat) (self : FIFOBuffer.t)
  : result (list (option Z) * FIFOBuffer.t) :=
  match n with
  | O => mret ([], self)
  | S k =>
      p ← FIFOBuffer.remove self;
      q ← remove_n k (snd p);
      mret (fst p :: fst q, snd q)
  end.

(** The same loop of adds on the defective class. *)
Fixpoint broken_add_all (self : BrokenFIFOBuffer.t) (items : list Z)
  : result BrokenFIFOBuffer.t :=
  match items with
  | [] => mret self
  | item :: rest => b ← BrokenFIFOBuffer.add self item; broken_add_all b rest
  end.

(** ** Python dictionaries with integer keys

    A [dict] is a finite map together with the order in which its keys were
    first inserted, which is the order a [for key in d] loop visits them. *)

Module Dict.

Record t (V : Type) : Type := Build { store : gmap Z V; order : list Z }.

Arguments Build {V} store order.
Arguments store {V} _.
Arguments order {V} _.

Definition empty {V : Type} : t V := {| store := ∅; order := [] |}.

(** [key in d] *)
Definition contains {V : Type} (d : t V) (key : Z) : bool :=
  match store d !! key with
  | Some _ => true
  | None => false
  end.

(** [d[key]] *)
Definition getitem {V : Type} (d : t V) (key : Z) : result V :=
  match store d !! key with
  | Some v => Ok v
  | None => Raise (KeyError key)
  end.

(** [d[key] = v]; also models an in-place mutation of the object stored
    under an existing [key]. *)
Definition setitem {V : Type} (d : t V) (key : Z) (v : V) : t V :=
  {| store := <[key := v]> (store d);
     order := if contains d key then order d else order d ++ [key] |}.

(** [d.keys()] *)
Definition keys {V : Type} (d : t V) : list Z := order d.

End Dict.

(** ** class FIFOBufferStateMachine *)

Module FIFOBufferStateMachine.

Record t : Type := Build { buffer : option FIFOBuffer.t; max_length : Z }.

Definition __init__ : t := {| buffer := None; max_length := 0 |}.

Definition initialize_buffer (self : t) (max_length : Z) : result t :=
  b ← FIFOBuffer.__init__ max_length;
  mret {| buffer := Some b; max_length := max_length |}.

Definition add_item (self : t) (item : Z) : result t :=
  match buffer self with
  | Some b =>
      b' ← FIFOBuffer.add b item;
      mret {| buffer := Some b'; max_length := max_length self |}
  | None => mret self
  end.

Definition remove_item (self : t) : result t :=
  match buffer self with
  | Some b =>
      p ← FIFOBuffer.remove b;
      mret {| buffer := Some (snd p); max_length := max_length self |}
  | None => mret self
  end.

Definition peek_item (self : t) : result t :=
  match buffer self with
  | Some b => _ ← FIFOBuffer.peek b; mret self
  | None => mret self
  end.

Definition check_empty (self : t) : result t :=
  match buffer self with
  | Some b => let _ := FIFOBuffer.is_empty b in mret self
  | None => mret self
  end.

Definition check_full (self : t) : result t :=
  match buffer self with
  | Some b => let _ := FIFOBuffer.is_full b in mret self
  | None => mret self
  end.

Definition check_size (self : t) : result t :=
  match buffer self with
  | Some b => let _ := FIFOBuffer.size b in mret self
  | None => mret self
  end.

Definition buffer_length_invariant (self : t) : result unit :=
  match buffer self with
  | Some b =>
      if FIFOBuffer.size b <=? max_length self then mret tt
      else Raise (AssertionError (SizeExceeds (FIFOBuffer.size b) (max_length self)))
  | None => mret tt
  end.

Definition buffer_not_negative (self : t) : result unit :=
  match buffer self with
  | Some b =>
      if FIFOBuffer.size b >=? 0 then mret tt
      else Raise (AssertionError (SizeNegative (FIFOBuffer.size b)))
  | None => mret tt
  end.

(** A rule together with the arguments drawn for it. *)
Inductive rule : Type :=
| InitializeBuffer (max_length : Z)
| AddItem (item : Z)
| RemoveItem
| PeekItem
| CheckEmpty
| CheckFull
| CheckSize.

(** The [@rule] decorators: which argument values the strategies can
    draw.  No rule of this machine has a precondition. *)
Definition eligible (self : t) (r : rule) : bool :=
  match r with
  | InitializeBuffer max_length => (1 <=? max_length) && (max_length <=? 10)
  | _ => true
  end.

Definition step (self : t) (r : rule) : result t :=
  match r with
  | InitializeBuffer max_length => initialize_buffer self max_length
  | AddItem item => add_item self item
  | RemoveItem => remove_item self
  | PeekItem => peek_item self
  | CheckEmpty => check_empty self
  | CheckFull => check_full self
  | CheckSize => check_size self
  end.

(** The [@invariant] methods, in the order they are checked. *)
Definition check_invariants (self : t) : result unit :=
  _ ← buffer_length_invariant self;
  buffer_not_negative self.

End FIFOBufferStateMachine.

(** ** class BrokenFIFOBufferStateMachine *)

(** [for key in keys: body(key)], stopping at the first exception. *)
Fixpoint for_each (body : Z → result unit) (keys : list Z) : result unit :=
  match keys with
  | [] => mret tt
  | key :: rest => _ ← body key; for_each body rest
  end.

Module BrokenFIFOBufferStateMachine.

(** [buffer_map] is the instance attribute; [Buffer_Keys] is the content of
    the bundle of that name: every value a rule with [target=Buffer_Keys]
    returned so far, oldest first. *)
Record t : Type := Build {
  buffer_map : Dict.t BrokenFIFOBuffer.t;
  Buffer_Keys : list Z
}.

Definition __init__ : t := {| buffer_map := Dict.empty; Buffer_Keys := [] |}.

(** The method proper: the value it returns and the machine afterwards. *)
Definition initialize_buffer (self : t) (max_length : Z) : result (Z * t) :=
  if negb (Dict.contains (buffer_map self) max_length)
  then
    b ← BrokenFIFOBuffer.__init__ max_length;
    mret (max_length,
          {| buffer_map := Dict.setitem (buffer_map self) max_length b;
             Buffer_Keys := Buffer_Keys self |})
  else mret (max_length, self).

Definition add_item (self : t) (item : Z) (buffer_key : Z) : result t :=
  b ← Dict.getitem (buffer_map self) buffer_key;
  b' ← BrokenFIFOBuffer.add b item;
  mret {| buffer_map := Dict.setitem (buffer_map self) buffer_key b';
          Buffer_Keys := Buffer_Keys self |}.

Definition check_empty (self : t) (buffer_key : Z) : result t :=
  b ← Dict.getitem (buffer_map self) buffer_key;
  let _ := BrokenFIFOBuffer.is_empty b in mret self.

Definition check_full (self : t) (buffer_key : Z) : result t :=
  b ← Dict.getitem (buffer_map self) buffer_key;
  let _ := BrokenFIFOBuffer.is_full b in mret self.

Definition check_size (self : t) (buffer_key : Z) : result t :=
  b ← Dict.getitem (buffer_map self) buffer_key;
  let _ := BrokenFIFOBuffer.size b in mret self.

(** The precondition shared by the three invariants. *)
Definition has_keys (self : t) : bool :=
  len (Dict.keys (buffer_map self)) >? 0.

Definition buffer_length_invariant (self : t) : result unit :=
  if has_keys self then
    for_each (fun buffer_key =>
      b ← Dict.getitem (buffer_map self) buffer_key;
      if BrokenFIFOBuffer.size b <=? BrokenFIFOBuffer.max_length b then mret tt
      else Raise (AssertionError
             (SizeExceeds (BrokenFIFOBuffer.size b) (BrokenFIFOBuffer.max_length b))))
      (Dict.keys (buffer_map self))
  else mret tt.

Definition buffer_not_negative (self : t) : result unit :=
  if has_keys self then
    for_each (fun buffer_key =>
      b ← Dict.getitem (buffer_map self) buffer_key;
      if BrokenFIFOBuffer.size b >=? 0 then mret tt
      else Raise (AssertionError (SizeNegative (BrokenFIFOBuffer.size b))))
      (Dict.keys (buffer_map self))
  else mret tt.

Definition max_length_positive (self : t) : result unit :=
  if has_keys self then
    for_each (fun buffer_key =>
      b ← Dict.getitem (buffer_map self) buffer_key;
      if BrokenFIFOBuffer.max_length b >? 0 then mret tt
      else Raise (AssertionError
             (MaxLengthNotPositive (BrokenFIFOBuffer.max_length b))))
      (Dict.keys (buffer_map self))
  else mret tt.

(** A rule together with the arguments drawn for it. *)
Inductive rule : Type :=
| InitializeBuffer (max_length : Z)
| AddItem (item : Z) (buffer_key : Z)
| CheckEmpty (buffer_key : Z)
| CheckFull (buffer_key : Z)
| CheckSize (buffer_key : Z).

(** The handle a rule needs, if it needs one. *)
Definition handle (r : rule) : option Z :=
  match r with
  | InitializeBuffer _ => None
  | AddItem _ buffer_key => Some buffer_key
  | CheckEmpty buffer_key => Some buffer_key
  | CheckFull buffer_key => Some buffer_key
  | CheckSize buffer_key => Some buffer_key
  end.

(** The [@rule] decorators: [max_length] is drawn from
    [integers(min_value=-1, max_value=10)], and an argument declared as
    [buffer_key=Buffer_Keys] is drawn from the bundle, so the rule can
    only run with a value the bundle holds. *)
Definition eligible (self : t) (r : rule) : bool :=
  match r with
  | InitializeBuffer max_length => (-1 <=? max_length) && (max_length <=? 10)
  | _ =>
      match handle r with
      | Some buffer_key => bool_decide (buffer_key ∈ Buffer_Keys self)
      | None => true
      end
  end.

Definition step (self : t) (r : rule) : result t :=
  match r with
  | InitializeBuffer max_length =>
      p ← initialize_buffer self max_length;
      mret {| buffer_map := buffer_map (snd p);
              Buffer_Keys := Buffer_Keys (snd p) ++ [fst p] |}
  | AddItem item buffer_key => add_item self item buffer_key
  | CheckEmpty buffer_key => check_empty self buffer_key
  | CheckFull buffer_key => check_full self buffer_key
  | CheckSize buffer_key => check_size self buffer_key
  end.

(** The [@invariant] methods, in the order they are checked. *)
Definition check_invariants (self : t) : result unit :=
  _ ← buffer_length_invariant self;
  _ ← buffer_not_negative self;
  max_length_positive self.

End BrokenFIFOBufferStateMachine.

(** ** The sequence driver *)

Section Driver.

Variables (State Rule : Type).
Variable step : State → Rule → result State.
Variable check_invariants : State → result unit.

(** Modelled from the spec: the ways a run ends (section 4.4 of the design
    document; the loop is the testing library's).  [Failed] keeps the rule
    after which an invariant was found violated ([None]: before any rule
    ran), the assertion raised and the machine at that moment; [Crashed]
    keeps the rule that raised. *)
Inductive outcome : Type :=
| Completed (final : State)
| Failed (trigger : option Rule) (violation : exn) (at_failure : State)
| Crashed (trigger : Rule) (e : exn) (before : State).

(** Modelled from the spec: the loop that runs a state machine is the
    testing library's and is not part of the sources; section 4.4 of the
    design document describes it.  One rule is applied fully, then every
    invariant is evaluated; the first violation ends the run in [Failed],
    which is terminal; a sequence that is exhausted without violation ends
    in [Completed]. *)
Fixpoint steps (self : State) (rules : list Rule) : outcome :=
  match rules with
  | [] => Completed self
  | r :: rest =>
      match step self r with
      | Raise e => Crashed r e self
      | Ok self' =>
          match check_invariants self' with
          | Raise e => Failed (Some r) e self'
          | Ok _ => steps self' rest
          end
      end
  end.

(** Modelled from the spec: a run starts from the freshly constructed
    machine, whose invariants are evaluated before the first rule. *)
Definition run (init : State) (rules : list Rule) : outcome :=
  match check_invariants init with
  | Raise e => Failed None e init
  | Ok _ => steps init rules
  end.

Variable eligible : State → Rule → bool.

(** The machines a run passes through when every rule applied is one the
    strategies can produce; invariants are not consulted, so this covers
    at least every machine a run of the driver reaches. *)
Inductive trace (init : State) : list Rule → State → Prop :=
| trace_nil : trace init [] init
| trace_snoc rules r self self' :
    trace init rules self →
    eligible self r = true →
    step self r = Ok self' →
    trace init (rules ++ [r]) self'.

End Driver.

Arguments Completed {State Rule} final.
Arguments Failed {State Rule} trigger violation at_failure.
Arguments Crashed {State Rule} trigger e before.
Arguments steps {State Rule} step check_invariants self rules.
Arguments run {State Rule} step check_invariants init rules.
Arguments trace {State Rule} step eligible init _ _.
Arguments trace_nil {State Rule step eligible init}.
Arguments trace_snoc {State Rule step eligible init} rules r self self' _ _ _.

Definition run_correct : list FIFOBufferStateMachine.rule → outcome _ _ :=
  run FIFOBufferStateMachine.step FIFOBufferStateMachine.check_invariants
      FIFOBufferStateMachine.__init__.

Definition run_broken : list BrokenFIFOBufferStateMachine.rule → outcome _ _ :=
  run BrokenFIFOBufferStateMachine.step BrokenFIFOBufferStateMachine.check_invariants
      BrokenFIFOBufferStateMachine.__init__.

Definition trace_correct :=
  trace FIFOBufferStateMachine.step FIFOBufferStateMachine.eligible
        FIFOBufferStateMachine.__init__.

Definition trace_broken :=
  trace BrokenFIFOBufferStateMachine.step BrokenFIFOBufferStateMachine.eligible
        BrokenFIFOBufferStateMachine.__init__.

(** ** Buffers that public use can produce *)

(** A buffer obtained from the constructor by any number of public calls. *)
Inductive reachable : FIFOBuffer.t → Prop :=
| reach_new capacity b :
    FIFOBuffer.__init__ capacity = Ok b → reachable b
| reach_call b o v b' :
    reachable b → call b o = Ok (v, b') → reachable b'.

(** The representation invariant of the correct class. *)
Definition wf (b : FIFOBuffer.t) : Prop :=
  0 < FIFOBuffer.max_length b ∧
  0 <= FIFOBuffer.size b <= FIFOBuffer.max_length b.

(** ** States the machines can be in *)

(** What holds of the correct machine after any eligible rules: it holds a
    buffer only if an [initialize_buffer] rule ran, that buffer is
    well-formed and its capacity is the machine's [max_length]; without a
    buffer the machine is still the freshly constructed one. *)
Definition machine_ok (rules : list FIFOBufferStateMachine.rule)
    (self : FIFOBufferStateMachine.t) : Prop :=
  match FIFOBufferStateMachine.buffer self with
  | Some b =>
      wf b ∧
      FIFOBufferStateMachine.max_length self = FIFOBuffer.max_length b ∧
      ∃ max_length, FIFOBufferStateMachine.InitializeBuffer max_length ∈ rules
  | None =>
      self = FIFOBufferStateMachine.__init__ ∧
      ∀ max_length, FIFOBufferStateMachine.InitializeBuffer max_length ∉ rules
  end.

(** What holds of the defective machine after any eligible rules: the
    dictionary's key order lists exactly its keys, once each, and every
    handle in the bundle names a registered buffer and was produced by an
    [initialize_buffer] rule that ran before. *)
Definition registry_ok (rules : list BrokenFIFOBufferStateMachine.rule)
    (self : BrokenFIFOBufferStateMachine.t) : Prop :=
  let d := BrokenFIFOBufferStateMachine.buffer_map self in
  NoDup (Dict.keys d) ∧
  (∀ key, key ∈ Dict.keys d ↔ is_Some (Dict.store d !! key)) ∧
  (∀ key, key ∈ BrokenFIFOBufferStateMachine.Buffer_Keys self →
     is_Some (Dict.store d !! key) ∧
     BrokenFIFOBufferStateMachine.InitializeBuffer key ∈ rules).

(** The scenario of the design document: one buffer of capacity 3, then five
    adds to it. *)
Definition overflow_scenario : list BrokenFIFOBufferStateMachine.rule :=
  [BrokenFIFOBufferStateMachine.InitializeBuffer 3;
   BrokenFIFOBufferStateMachine.AddItem 1 3;
   BrokenFIFOBufferStateMachine.AddItem 2 3;
   BrokenFIFOBufferStateMachine.AddItem 3 3;
   BrokenFIFOBufferStateMachine.AddItem 4 3;
   BrokenFIFOBufferStateMachine.AddItem 5 3].

(** The defective machine holding one buffer of capacity 3 with the given
    contents, its handle drawn once. *)
Definition one_buffer (contents : list Z) : BrokenFIFOBufferStateMachine.t :=
  {| BrokenFIFOBufferStateMachine.buffer_map :=
       Dict.setitem Dict.empty 3 (BrokenFIFOBuffer.Build 3 contents);
     BrokenFIFOBufferStateMachine.Buffer_Keys := [3] |}.

(** ** The two classes side by side *)

(** The defective buffer with the capacity and contents of a correct one. *)
Definition to_broken (b : FIFOBuffer.t) : BrokenFIFOBuffer.t :=
  {| BrokenFIFOBuffer.max_length := FIFOBuffer.max_length b;
     BrokenFIFOBuffer.buffer := FIFOBuffer.buffer b |}.

(** ** Runs of the defective machine on one buffer *)

(** The defective machine holding exactly one buffer, of the given capacity
    and contents, its handle drawn once. *)
Definition single (capacity : Z) (contents : list Z) : BrokenFIFOBufferStateMachine.t :=
  {| BrokenFIFOBufferStateMachine.buffer_map :=
       Dict.setitem Dict.empty capacity (BrokenFIFOBuffer.Build capacity contents);
     BrokenFIFOBufferStateMachine.Buffer_Keys := [capacity] |}.

(** One [add_item] rule per item, all on the same handle. *)
Definition adds (buffer_key : Z) (items : list Z)
  : list BrokenFIFOBufferStateMachine.rule :=
  map (fun item => BrokenFIFOBufferStateMachine.AddItem item buffer_key) items.

(** Every handle in the bundle names a buffer of the registry. *)
Definition bundle_ok (self : BrokenFIFOBufferStateMachine.t) : Prop :=
  ∀ key, key ∈ BrokenFIFOBufferStateMachine.Buffer_Keys self →
         is_Some (Dict.store (BrokenFIFOBufferStateMachine.buffer_map self) !! key).

(** ** class_st.py: the greeting of a person and its property test *)

Module class_st.

(** A Python [str]: its code points, in order. *)
Definition text : Type := list N.

(** A string literal of the source; the literals used are ASCII. *)
Definition lit (s : string) : text :=
  map Ascii.N_of_ascii (String.list_ascii_of_string s).

(** [str(n)] for an integer, which is also how an f-string renders it:
    decimal digits, with a leading minus sign when negative. *)
Definition str (n : Z) : text := lit (pretty n).

(** [hay.startswith(needle)] *)
Fixpoint startswith (hay needle : text) : bool :=
  match needle, hay with
  | [], _ => true
  | _ :: _, [] => false
  | x :: needle', y :: hay' => (x =? y)%N && startswith hay' needle'
  end.

(** [needle in hay]: [needle] occurs in [hay] as a contiguous run. *)
Fixpoint contains (hay needle : text) : bool :=
  startswith hay needle ||
  match hay with
  | [] => false
  | _ :: hay' => contains hay' needle
  end.

Record Person : Type := Build { name : text; age : Z }.

Definition greet_person (person : Person) : text :=
  lit "Hello " ++ name person ++ lit ", you are " ++ str (age person)
    ++ lit " years old!".


Section Test.

(** The Unicode table behind [str.isalpha]: whether a code point is a
    letter.  It is not part of the sources. *)
Variable is_alphabetic : N → bool.



End Test.

End class_st.

(** * Properties *)

(** ** Reasoning steps shared by the proofs *)

Ltac case_geb :=
  match goal with
  | |- context [?a >=? ?b] =>
      rewrite (Z.geb_leb a b); destruct (Z.leb_spec b a)
  end.

Lemma len_nonneg (l : list Z) : 0 <= len l.
Proof. unfold len. lia. Qed.

Lemma len_cons (x : Z) (l : list Z) : len (x :: l) = 1 + len l.
Proof. unfold len. simpl length. lia. Qed.

Lemma len_app (l1 l2 : list Z) : len (l1 ++ l2) = len l1 + len l2.
Proof. unfold len. rewrite length_app. lia. Qed.

Lemma init_positive (capacity : Z) :
  0 < capacity →
  FIFOBuffer.__init__ capacity = Ok (FIFOBuffer.Build capacity []).
Proof.
  intros Hpos. unfold FIFOBuffer.__init__.
  destruct (Z.leb_spec capacity 0); [lia | reflexivity].
Qed.

Lemma init_wf (capacity : Z) (b : FIFOBuffer.t) :
  FIFOBuffer.__init__ capacity = Ok b →
  wf b ∧ FIFOBuffer.max_length b = capacity ∧ FIFOBuffer.buffer b = [].
Proof.
  unfold FIFOBuffer.__init__.
  destruct (Z.leb_spec capacity 0) as [Hle | Hgt]; intros Heq; [discriminate |].
  injection Heq as <-. unfold wf, FIFOBuffer.size, len. simpl.
  repeat split; lia.
Qed.

(** On a full buffer [add] drops the head and appends. *)
Lemma add_at_capacity (b : FIFOBuffer.t) (item oldest : Z) (rest : list Z) :
  FIFOBuffer.buffer b = oldest :: rest →
  FIFOBuffer.max_length b <= len (FIFOBuffer.buffer b) →
  FIFOBuffer.add b item =
    Ok (FIFOBuffer.Build (FIFOBuffer.max_length b) (rest ++ [item])).
Proof.
  intros Hbuf Hfull. unfold FIFOBuffer.add.
  case_geb; [| lia]. rewrite Hbuf. reflexivity.
Qed.

(** Below capacity [add] only appends. *)
Lemma add_below_capacity (b : FIFOBuffer.t) (item : Z) :
  len (FIFOBuffer.buffer b) < FIFOBuffer.max_length b →
  FIFOBuffer.add b item =
    Ok (FIFOBuffer.Build (FIFOBuffer.max_length b) (FIFOBuffer.buffer b ++ [item])).
Proof.
  intros Hlt. unfold FIFOBuffer.add.
  case_geb; [lia | reflexivity].
Qed.

Lemma add_wf (b : FIFOBuffer.t) (item : Z) :
  wf b →
  ∃ b', FIFOBuffer.add b item = Ok b' ∧ wf b' ∧
        FIFOBuffer.max_length b' = FIFOBuffer.max_length b.
Proof.
  intros [Hpos [_ Hle]]. unfold FIFOBuffer.size in Hle.
  destruct (Z_lt_le_dec (len (FIFOBuffer.buffer b)) (FIFOBuffer.max_length b))
    as [Hlt | Hge].
  - eexists. split; [apply add_below_capacity; exact Hlt |].
    unfold wf, FIFOBuffer.size. simpl. rewrite len_app.
    pose proof (len_nonneg (FIFOBuffer.buffer b)).
    change (len [item]) with 1. lia.
  - destruct (FIFOBuffer.buffer b) as [| oldest rest] eqn:Hbuf.
    + change (len []) with 0 in Hge. lia.
    + eexists. split; [apply (add_at_capacity b item oldest rest); [exact Hbuf |] |].
      * rewrite Hbuf. exact Hge.
      * unfold wf, FIFOBuffer.size. simpl. rewrite len_app.
        rewrite len_cons in Hle. pose proof (len_nonneg rest).
        change (len [item]) with 1. lia.
Qed.

Lemma remove_wf (b : FIFOBuffer.t) :
  wf b →
  ∃ r b', FIFOBuffer.remove b = Ok (r, b') ∧ wf b' ∧
          FIFOBuffer.max_length b' = FIFOBuffer.max_length b.
Proof.
  intros Hwf. unfold FIFOBuffer.remove.
  destruct (FIFOBuffer.buffer b) as [| oldest rest] eqn:Hbuf.
  - exists None, b. auto.
  - exists (Some oldest), (FIFOBuffer.Build (FIFOBuffer.max_length b) rest).
    split; [reflexivity |]. destruct Hwf as [Hpos [_ Hle]].
    unfold wf, FIFOBuffer.size in *. simpl. rewrite Hbuf, len_cons in Hle.
    pose proof (len_nonneg rest). lia.
Qed.

Lemma peek_total (b : FIFOBuffer.t) : ∃ r, FIFOBuffer.peek b = Ok r.
Proof.
  unfold FIFOBuffer.peek.
  destruct (FIFOBuffer.buffer b) as [| oldest rest]; eexists; reflexivity.
Qed.

(** Every public call on a well-formed buffer returns and keeps it
    well-formed, with the same capacity. *)
Lemma call_wf (b : FIFOBuffer.t) (o : op) :
  wf b →
  ∃ v b', call b o = Ok (v, b') ∧ wf b' ∧
          FIFOBuffer.max_length b' = FIFOBuffer.max_length b.
Proof.
  intros Hwf. destruct o as [item | | | | |]; simpl.
  - destruct (add_wf b item Hwf) as (b' & -> & Hwf' & Hml). simpl. eauto.
  - destruct (remove_wf b Hwf) as (r & b' & -> & Hwf' & Hml). simpl. eauto.
  - destruct (peek_total b) as (r & ->). simpl. eauto.
  - eauto.
  - eauto.
  - eauto.
Qed.

Lemma calls_wf (ops : list op) (b : FIFOBuffer.t) :
  wf b →
  ∃ tr, calls b ops = Ok tr ∧ length tr = length ops ∧
        Forall (fun p => wf (snd p) ∧
                  FIFOBuffer.max_length (snd p) = FIFOBuffer.max_length b) tr.
Proof.
  revert b. induction ops as [| o rest IH]; intros b Hwf.
  - exists []. simpl. auto.
  - destruct (call_wf b o Hwf) as (v & b' & Hcall & Hwf' & Hml).
    destruct (IH b' Hwf') as (tr & Hcalls & Hlen & Hall).
    exists ((v, b') :: tr). simpl. rewrite Hcall. simpl. rewrite Hcalls. simpl.
    split; [reflexivity |]. split; [congruence |].
    constructor; [simpl; auto |].
    eapply Forall_impl; [exact Hall |]. simpl. intros p [? ?]. split; [auto | congruence].
Qed.

Lemma reachable_wf (b : FIFOBuffer.t) : reachable b → wf b.
Proof.
  induction 1 as [capacity b Hinit | b o v b' _ IH Hcall].
  - apply (init_wf capacity b Hinit).
  - destruct (call_wf b o IH) as (v' & b'' & Hcall' & Hwf' & _).
    rewrite Hcall in Hcall'. injection Hcall' as _ <-. exact Hwf'.
Qed.

(** ** The correct buffer *)

(** C1. A [FIFOBuffer] built with a positive capacity accepts every finite
    sequence of [add], [remove], [peek], [is_empty], [is_full] and [size]
    calls: the constructor and every call return, and after each call
    [0 <= size() <= capacity] holds, the capacity being the one given to the
    constructor. *)
Theorem C1_capacity_invariant (capacity : Z) (ops : list op) :
  0 < capacity →
  ∃ b0 tr,
    FIFOBuffer.__init__ capacity = Ok b0 ∧
    calls b0 ops = Ok tr ∧
    length tr = length ops ∧
    Forall (fun p => 0 <= FIFOBuffer.size (snd p) <= capacity ∧
                     len (FIFOBuffer.buffer (snd p)) <= FIFOBuffer.max_length (snd p) ∧
                     FIFOBuffer.max_length (snd p) = capacity) tr.
Proof.
  intros Hpos.
  pose proof (init_positive capacity Hpos) as Hinit.
  destruct (init_wf _ _ Hinit) as (Hwf & Hml & _).
  destruct (calls_wf ops _ Hwf) as (tr & Hcalls & Hlen & Hall).
  exists (FIFOBuffer.Build capacity []), tr.
  repeat split; try assumption.
  eapply Forall_impl; [exact Hall |].
  intros [v b]. simpl. intros [[_ Hsz] Hcap]. simpl in Hcap.
  unfold FIFOBuffer.size in *. lia.
Qed.

Lemma C1_capacity_invariant_witness :
  ∃ b0 tr,
    FIFOBuffer.__init__ 2 = Ok b0 ∧
    calls b0 [Add 7; IsFull; Add 8; Add 9; Peek; Remove; Size; Remove; Remove; IsEmpty]
      = Ok tr ∧
    length tr = 10%nat ∧
    Forall (fun p => 0 <= FIFOBuffer.size (snd p) <= 2 ∧
                     len (FIFOBuffer.buffer (snd p)) <= FIFOBuffer.max_length (snd p) ∧
                     FIFOBuffer.max_length (snd p) = 2) tr.
Proof.
  apply (C1_capacity_invariant 2
           [Add 7; IsFull; Add 8; Add 9; Peek; Remove; Size; Remove; Remove; IsEmpty]).
  lia.
Defined.

(** C2. On a buffer produced by the constructor and public calls, [add]
    never raises and leaves [size() <= capacity].  When the buffer is full,
    holding [oldest :: rest], the result holds [rest ++ [item]]: the oldest
    item is evicted and the new one appended.  When it is not full the
    result holds the old contents followed by [item]. *)
Theorem C2_add_evicts_oldest (b : FIFOBuffer.t) (item : Z) :
  reachable b →
  ∃ b',
    FIFOBuffer.add b item = Ok b' ∧
    FIFOBuffer.max_length b' = FIFOBuffer.max_length b ∧
    FIFOBuffer.size b' <= FIFOBuffer.max_length b' ∧
    (FIFOBuffer.is_full b = true →
       ∃ oldest rest,
         FIFOBuffer.buffer b = oldest :: rest ∧
         FIFOBuffer.buffer b' = rest ++ [item]) ∧
    (FIFOBuffer.is_full b = false →
       FIFOBuffer.buffer b' = FIFOBuffer.buffer b ++ [item]).
Proof.
  intros Hreach. pose proof (reachable_wf b Hreach) as Hwf.
  destruct (add_wf b item Hwf) as (b' & Hadd & [_ [_ Hsz']] & Hml).
  exists b'. split; [exact Hadd |]. split; [exact Hml |]. split; [exact Hsz' |].
  destruct Hwf as [Hpos [_ Hle]]. unfold FIFOBuffer.size in Hle.
  unfold FIFOBuffer.is_full. split.
  - intros Hfull. apply Z.eqb_eq in Hfull.
    destruct (FIFOBuffer.buffer b) as [| oldest rest] eqn:Hbuf.
    + change (len []) with 0 in Hfull. lia.
    + exists oldest, rest. split; [reflexivity |].
      rewrite (add_at_capacity b item oldest rest Hbuf) in Hadd.
      * injection Hadd as <-. reflexivity.
      * rewrite Hbuf. lia.
  - intros Hnot. apply Z.eqb_neq in Hnot.
    rewrite add_below_capacity in Hadd by lia.
    injection Hadd as <-. reflexivity.
Qed.

Lemma C2_add_evicts_oldest_witness :
  ∃ b',
    FIFOBuffer.add (FIFOBuffer.Build 2 [1; 2]) 3 = Ok b' ∧
    FIFOBuffer.max_length b' = 2 ∧
    FIFOBuffer.size b' <= FIFOBuffer.max_length b' ∧
    (FIFOBuffer.is_full (FIFOBuffer.Build 2 [1; 2]) = true →
       ∃ oldest rest,
         [1; 2] = oldest :: rest ∧ FIFOBuffer.buffer b' = rest ++ [3]) ∧
    (FIFOBuffer.is_full (FIFOBuffer.Build 2 [1; 2]) = false →
       FIFOBuffer.buffer b' = [1; 2] ++ [3]).
Proof.
  apply (C2_add_evicts_oldest (FIFOBuffer.Build 2 [1; 2]) 3).
  apply (reach_call (FIFOBuffer.Build 2 [1]) (Add 2) VNone); [| reflexivity].
  apply (reach_call (FIFOBuffer.Build 2 []) (Add 1) VNone); [| reflexivity].
  apply (reach_new 2). reflexivity.
Defined.

(** C4. The constructor raises [ValueError] for every capacity [<= 0]; for
    every capacity [> 0] it returns a buffer with that capacity and no
    items, so that [size()] is [0]. *)
Theorem C4_constructor_validates (capacity : Z) :
  (capacity <= 0 →
     FIFOBuffer.__init__ capacity = Raise (ValueError "max_length must be positive")) ∧
  (0 < capacity →
     ∃ b, FIFOBuffer.__init__ capacity = Ok b ∧
          FIFOBuffer.max_length b = capacity ∧
          FIFOBuffer.buffer b = [] ∧
          FIFOBuffer.size b = 0).
Proof.
  split.
  - intros Hle. unfold FIFOBuffer.__init__.
    destruct (Z.leb_spec capacity 0); [reflexivity | lia].
  - intros Hpos. exists (FIFOBuffer.Build capacity []).
    split; [apply init_positive; exact Hpos |]. auto.
Qed.

Lemma C4_constructor_validates_witness :
  FIFOBuffer.__init__ (-1) = Raise (ValueError "max_length must be positive") ∧
  FIFOBuffer.__init__ 0 = Raise (ValueError "max_length must be positive") ∧
  ∃ b, FIFOBuffer.__init__ 4 = Ok b ∧
       FIFOBuffer.max_length b = 4 ∧
       FIFOBuffer.buffer b = [] ∧
       FIFOBuffer.size b = 0.
Proof.
  split; [apply (proj1 (C4_constructor_validates (-1))); lia |].
  split; [apply (proj1 (C4_constructor_validates 0)); lia |].
  apply (proj2 (C4_constructor_validates 4)); lia.
Defined.

(** C5. On an empty buffer [remove] and [peek] return [None] without
    raising and the buffer is left as it was.  On a buffer holding
    [oldest :: rest], [remove] returns [oldest] and leaves [rest], one item
    fewer, and [peek] returns [oldest]; [peek] has no effect on the buffer
    (the embedding gives it no buffer to return). *)
Theorem C5_remove_peek (b : FIFOBuffer.t) :
  (FIFOBuffer.buffer b = [] →
     FIFOBuffer.remove b = Ok (None, b) ∧ FIFOBuffer.peek b = Ok None) ∧
  (∀ oldest rest,
     FIFOBuffer.buffer b = oldest :: rest →
     ∃ b',
       FIFOBuffer.remove b = Ok (Some oldest, b') ∧
       FIFOBuffer.buffer b' = rest ∧
       FIFOBuffer.max_length b' = FIFOBuffer.max_length b ∧
       FIFOBuffer.size b' = FIFOBuffer.size b - 1 ∧
       FIFOBuffer.peek b = Ok (Some oldest)).
Proof.
  split.
  - intros Hbuf. unfold FIFOBuffer.remove, FIFOBuffer.peek. rewrite Hbuf. auto.
  - intros oldest rest Hbuf.
    exists (FIFOBuffer.Build (FIFOBuffer.max_length b) rest).
    unfold FIFOBuffer.remove, FIFOBuffer.peek, FIFOBuffer.size.
    rewrite Hbuf. simpl. rewrite len_cons. repeat split; lia.
Qed.

Lemma C5_remove_peek_witness :
  (FIFOBuffer.remove (FIFOBuffer.Build 3 []) = Ok (None, FIFOBuffer.Build 3 []) ∧
   FIFOBuffer.peek (FIFOBuffer.Build 3 []) = Ok None) ∧
  ∃ b',
    FIFOBuffer.remove (FIFOBuffer.Build 3 [5; 6]) = Ok (Some 5, b') ∧
    FIFOBuffer.buffer b' = [6] ∧
    FIFOBuffer.max_length b' = 3 ∧
    FIFOBuffer.size b' = FIFOBuffer.size (FIFOBuffer.Build 3 [5; 6]) - 1 ∧
    FIFOBuffer.peek (FIFOBuffer.Build 3 [5; 6]) = Ok (Some 5).
Proof.
  split.
  - apply (proj1 (C5_remove_peek (FIFOBuffer.Build 3 []))). reflexivity.
  - apply (proj2 (C5_remove_peek (FIFOBuffer.Build 3 [5; 6])) 5 [6]). reflexivity.
Defined.

(** Adds that fit below the capacity only append. *)
Lemma add_all_below_capacity (items : list Z) (b : FIFOBuffer.t) :
  len (FIFOBuffer.buffer b) + len items <= FIFOBuffer.max_length b →
  add_all b items =
    Ok (FIFOBuffer.Build (FIFOBuffer.max_length b) (FIFOBuffer.buffer b ++ items)).
Proof.
  revert b. induction items as [| item rest IH]; intros b Hfit; simpl.
  - rewrite app_nil_r. destruct b. reflexivity.
  - rewrite len_cons in Hfit. pose proof (len_nonneg rest).
    rewrite add_below_capacity by lia. simpl.
    rewrite IH; simpl.
    + rewrite <- app_assoc. reflexivity.
    + rewrite len_app. change (len [item]) with 1. lia.
Qed.

(** Removing as many items as a prefix has returns that prefix, in order. *)
Lemma remove_n_prefix (items rest : list Z) (capacity : Z) :
  remove_n (length items) (FIFOBuffer.Build capacity (items ++ rest)) =
    Ok (map Some items, FIFOBuffer.Build capacity rest).
Proof.
  induction items as [| item items' IH]; simpl.
  - reflexivity.
  - unfold FIFOBuffer.remove. simpl. rewrite IH. reflexivity.
Qed.

(** C6. Starting from an empty buffer, adding [v1 ... vn] with [n] at most
    the capacity (so nothing is evicted) and then calling [remove] [n] times
    returns [v1 ... vn] in that order, and the buffer is empty again. *)
Theorem C6_fifo_order (b : FIFOBuffer.t) (items : list Z) :
  FIFOBuffer.buffer b = [] →
  len items <= FIFOBuffer.max_length b →
  ∃ filled drained,
    add_all b items = Ok filled ∧
    FIFOBuffer.buffer filled = items ∧
    remove_n (length items) filled = Ok (map Some items, drained) ∧
    FIFOBuffer.buffer drained = [].
Proof.
  intros Hempty Hfit.
  exists (FIFOBuffer.Build (FIFOBuffer.max_length b) items),
         (FIFOBuffer.Build (FIFOBuffer.max_length b) []).
  split.
  - rewrite add_all_below_capacity.
    + rewrite Hempty. reflexivity.
    + rewrite Hempty. change (len []) with 0. lia.
  - split; [reflexivity |]. split; [| reflexivity].
    rewrite <- (app_nil_r items) at 2. apply remove_n_prefix.
Qed.

Lemma C6_fifo_order_witness :
  ∃ filled drained,
    add_all (FIFOBuffer.Build 3 []) [10; 20; 30] = Ok filled ∧
    FIFOBuffer.buffer filled = [10; 20; 30] ∧
    remove_n 3 filled = Ok ([Some 10; Some 20; Some 30], drained) ∧
    FIFOBuffer.buffer drained = [].
Proof.
  apply (C6_fifo_order (FIFOBuffer.Build 3 []) [10; 20; 30]).
  - reflexivity.
  - vm_compute. discriminate.
Defined.

(** ** The defective buffer *)

(** C7. The constructor of [BrokenFIFOBuffer] accepts every capacity, zero
    and negative ones included.  On an empty [BrokenFIFOBuffer] both
    [remove] and [peek] raise [IndexError]; on an empty [FIFOBuffer] the same
    calls return [None]. *)
Theorem C7_broken_crashes_on_empty :
  (∀ capacity,
     BrokenFIFOBuffer.__init__ capacity = Ok (BrokenFIFOBuffer.Build capacity [])) ∧
  (∀ b, BrokenFIFOBuffer.buffer b = [] →
     BrokenFIFOBuffer.remove b = Raise (IndexError "pop from empty list") ∧
     BrokenFIFOBuffer.peek b = Raise (IndexError "list index out of range")) ∧
  (∀ b, FIFOBuffer.buffer b = [] →
     FIFOBuffer.remove b = Ok (None, b) ∧ FIFOBuffer.peek b = Ok None).
Proof.
  split; [reflexivity |]. split.
  - intros b Hbuf. unfold BrokenFIFOBuffer.remove, BrokenFIFOBuffer.peek.
    rewrite Hbuf. split; reflexivity.
  - intros b Hbuf. unfold FIFOBuffer.remove, FIFOBuffer.peek.
    rewrite Hbuf. split; reflexivity.
Qed.

Lemma C7_broken_crashes_on_empty_witness :
  BrokenFIFOBuffer.__init__ (-1) = Ok (BrokenFIFOBuffer.Build (-1) []) ∧
  BrokenFIFOBuffer.__init__ 0 = Ok (BrokenFIFOBuffer.Build 0 []) ∧
  (BrokenFIFOBuffer.remove (BrokenFIFOBuffer.Build 0 [])
     = Raise (IndexError "pop from empty list") ∧
   BrokenFIFOBuffer.peek (BrokenFIFOBuffer.Build 0 [])
     = Raise (IndexError "list index out of range")) ∧
  (FIFOBuffer.remove (FIFOBuffer.Build 3 []) = Ok (None, FIFOBuffer.Build 3 []) ∧
   FIFOBuffer.peek (FIFOBuffer.Build 3 []) = Ok None).
Proof.
  pose proof C7_broken_crashes_on_empty as (Hnew & Hbroken & Hcorrect).
  split; [apply Hnew |]. split; [apply Hnew |]. split.
  - apply (Hbroken (BrokenFIFOBuffer.Build 0 [])). reflexivity.
  - apply (Hcorrect (FIFOBuffer.Build 3 [])). reflexivity.
Defined.

(** C10. For both classes and every buffer, [is_empty()] is true exactly
    when [size()] is [0] and [is_full()] is true exactly when [size()]
    equals [max_length].  Hence a [BrokenFIFOBuffer] grown past its
    [max_length] is not full, and one whose [max_length] is not positive is
    not full while it holds an item. *)
Theorem C10_queries_agree_with_size :
  (∀ b : FIFOBuffer.t,
     (FIFOBuffer.is_empty b = true ↔ FIFOBuffer.size b = 0) ∧
     (FIFOBuffer.is_full b = true ↔ FIFOBuffer.size b = FIFOBuffer.max_length b)) ∧
  (∀ b : BrokenFIFOBuffer.t,
     (BrokenFIFOBuffer.is_empty b = true ↔ BrokenFIFOBuffer.size b = 0) ∧
     (BrokenFIFOBuffer.is_full b = true ↔
        BrokenFIFOBuffer.size b = BrokenFIFOBuffer.max_length b) ∧
     (BrokenFIFOBuffer.max_length b < BrokenFIFOBuffer.size b →
        BrokenFIFOBuffer.is_full b = false) ∧
     (BrokenFIFOBuffer.max_length b <= 0 → BrokenFIFOBuffer.buffer b ≠ [] →
        BrokenFIFOBuffer.is_full b = false)).
Proof.
  split.
  - intros b. unfold FIFOBuffer.is_empty, FIFOBuffer.is_full, FIFOBuffer.size.
    split; apply Z.eqb_eq.
  - intros b.
    unfold BrokenFIFOBuffer.is_empty, BrokenFIFOBuffer.is_full, BrokenFIFOBuffer.size.
    split; [apply Z.eqb_eq |]. split; [apply Z.eqb_eq |]. split.
    + intros Hgt. apply Z.eqb_neq. lia.
    + intros Hnonpos Hne. apply Z.eqb_neq.
      destruct (BrokenFIFOBuffer.buffer b) as [| x rest]; [congruence |].
      rewrite len_cons. pose proof (len_nonneg rest). lia.
Qed.

Lemma C10_queries_agree_with_size_witness :
  BrokenFIFOBuffer.is_full (BrokenFIFOBuffer.Build 3 [1; 2; 3; 4; 5]) = false ∧
  BrokenFIFOBuffer.is_full (BrokenFIFOBuffer.Build (-1) [8]) = false.
Proof.
  pose proof (proj2 C10_queries_agree_with_size) as Hbroken.
  split.
  - destruct (Hbroken (BrokenFIFOBuffer.Build 3 [1; 2; 3; 4; 5]))
      as (_ & _ & Hpast & _).
    apply Hpast. vm_compute. reflexivity.
  - destruct (Hbroken (BrokenFIFOBuffer.Build (-1) [8]))
      as (_ & _ & _ & Hnonpos).
    apply Hnonpos.
    + vm_compute. discriminate.
    + simpl. discriminate.
Defined.

(** ** The registry of the defective machine *)

Lemma contains_true {V : Type} (d : Dict.t V) (key : Z) :
  Dict.contains d key = true ↔ is_Some (Dict.store d !! key).
Proof.
  unfold Dict.contains. destruct (Dict.store d !! key) as [v |].
  - split; [eauto | reflexivity].
  - split; [discriminate | intros [v Hv]; discriminate].
Qed.

Lemma contains_false {V : Type} (d : Dict.t V) (key : Z) :
  Dict.contains d key = false ↔ Dict.store d !! key = None.
Proof.
  unfold Dict.contains. destruct (Dict.store d !! key) as [v |].
  - split; discriminate.
  - split; reflexivity.
Qed.

Lemma getitem_present {V : Type} (d : Dict.t V) (key : Z) :
  is_Some (Dict.store d !! key) →
  ∃ v, Dict.getitem d key = Ok v ∧ Dict.store d !! key = Some v.
Proof.
  intros [v Hv]. exists v. unfold Dict.getitem. rewrite Hv. auto.
Qed.

Lemma contains_setitem {V : Type} (d : Dict.t V) (key : Z) (v : V) :
  Dict.contains (Dict.setitem d key v) key = true.
Proof.
  unfold Dict.contains, Dict.setitem. simpl. rewrite lookup_insert_eq. reflexivity.
Qed.

Lemma registry_ok_more_rules rules r self :
  registry_ok rules self → registry_ok (rules ++ [r]) self.
Proof.
  intros (Hnd & Hkeys & Hbundle). split; [exact Hnd |]. split; [exact Hkeys |].
  intros key Hin. destruct (Hbundle key Hin) as [Hsome Hran].
  split; [exact Hsome |]. apply elem_of_app. left. exact Hran.
Qed.

(** Replacing the buffer stored under a key that is present changes neither
    the keys nor their order. *)
Lemma setitem_present_keys {V : Type} (d : Dict.t V) (key : Z) (v : V) :
  is_Some (Dict.store d !! key) →
  Dict.keys (Dict.setitem d key v) = Dict.keys d ∧
  ∀ k, is_Some (Dict.store (Dict.setitem d key v) !! k) ↔ is_Some (Dict.store d !! k).
Proof.
  intros Hsome. split.
  - unfold Dict.keys, Dict.setitem. simpl.
    rewrite (proj2 (contains_true d key) Hsome). reflexivity.
  - intros k. unfold Dict.setitem. simpl. rewrite lookup_insert_is_Some.
    split.
    + intros [<- | [_ Hk]]; assumption.
    + intros Hk. destruct (decide (key = k)) as [-> | Hne]; auto.
Qed.

Lemma initialize_buffer_total (self : BrokenFIFOBufferStateMachine.t) (max_length : Z) :
  ∃ after,
    BrokenFIFOBufferStateMachine.initialize_buffer self max_length
      = Ok (max_length, after) ∧
    BrokenFIFOBufferStateMachine.Buffer_Keys after
      = BrokenFIFOBufferStateMachine.Buffer_Keys self ∧
    (Dict.contains (BrokenFIFOBufferStateMachine.buffer_map self) max_length = true →
       after = self) ∧
    (Dict.contains (BrokenFIFOBufferStateMachine.buffer_map self) max_length = false →
       BrokenFIFOBufferStateMachine.buffer_map after
         = Dict.setitem (BrokenFIFOBufferStateMachine.buffer_map self) max_length
             (BrokenFIFOBuffer.Build max_length [])).
Proof.
  unfold BrokenFIFOBufferStateMachine.initialize_buffer.
  destruct (Dict.contains (BrokenFIFOBufferStateMachine.buffer_map self) max_length)
    eqn:Hc; simpl.
  - exists self. repeat split. discriminate.
  - eexists. repeat split. discriminate.
Qed.

Lemma step_registry_ok rules self r :
  registry_ok rules self →
  BrokenFIFOBufferStateMachine.eligible self r = true →
  ∃ self', BrokenFIFOBufferStateMachine.step self r = Ok self' ∧
           registry_ok (rules ++ [r]) self'.
Proof.
  intros Hok Helig.
  assert (Hhandle : ∀ key, BrokenFIFOBufferStateMachine.handle r = Some key →
            is_Some (Dict.store (BrokenFIFOBufferStateMachine.buffer_map self) !! key)).
  { intros key Hkey. destruct Hok as (_ & _ & Hbundle). apply Hbundle.
    destruct r; simpl in *; try discriminate;
      injection Hkey as <-; apply bool_decide_eq_true in Helig; exact Helig. }
  assert (Hquery : ∀ key,
            is_Some (Dict.store (BrokenFIFOBufferStateMachine.buffer_map self) !! key) →
            registry_ok (rules ++ [r]) self).
  { intros _ _. apply registry_ok_more_rules. exact Hok. }
  destruct r as [max_length | item key | key | key | key]; simpl.
  - destruct (initialize_buffer_total self max_length)
      as (after & -> & Hkeys & Hsame & Hnew). simpl.
    eexists. split; [reflexivity |].
    destruct Hok as (Hnd & Hdom & Hbundle).
    destruct (Dict.contains (BrokenFIFOBufferStateMachine.buffer_map self) max_length)
      eqn:Hc.
    + rewrite (Hsame eq_refl). unfold registry_ok. simpl.
      split; [exact Hnd |]. split; [exact Hdom |].
      intros key Hin. apply elem_of_app in Hin as [Hin | Hin].
      * destruct (Hbundle key Hin). split; [assumption |].
        apply elem_of_app. left. assumption.
      * apply list_elem_of_singleton in Hin as ->.
        split; [apply contains_true; exact Hc |].
        apply elem_of_app. right. apply list_elem_of_singleton. reflexivity.
    + rewrite (Hnew eq_refl), Hkeys. unfold registry_ok. simpl.
      unfold Dict.keys in *. simpl. rewrite Hc.
      apply contains_false in Hc as Hnone.
      assert (Hfresh : max_length ∉
                Dict.order (BrokenFIFOBufferStateMachine.buffer_map self)).
      { intros Hin. apply Hdom in Hin as [v Hv]. congruence. }
      split.
      { apply NoDup_app. split; [exact Hnd |]. split.
        - intros k Hk Hk'. apply list_elem_of_singleton in Hk' as ->. auto.
        - apply NoDup_singleton. }
      split.
      { intros k. rewrite elem_of_app, list_elem_of_singleton, lookup_insert_is_Some.
        rewrite Hdom. destruct (decide (max_length = k)) as [-> | Hne].
        - split; auto.
        - split.
          + intros [Hk | ->]; [auto | congruence].
          + intros [-> | [_ Hk]]; [congruence | auto]. }
      intros k Hin. rewrite lookup_insert_is_Some.
      apply elem_of_app in Hin as [Hin | Hin].
      * destruct (Hbundle k Hin) as [Hsome Hran]. split.
        -- destruct (decide (max_length = k)); auto.
        -- apply elem_of_app. left. exact Hran.
      * apply list_elem_of_singleton in Hin as ->. split; [auto |].
        apply elem_of_app. right. apply list_elem_of_singleton. reflexivity.
  - specialize (Hhandle key eq_refl).
    destruct (getitem_present _ key Hhandle) as (b & Hget & Hlook).
    unfold BrokenFIFOBufferStateMachine.add_item. rewrite Hget. simpl.
    eexists. split; [reflexivity |].
    destruct Hok as (Hnd & Hdom & Hbundle).
    destruct (setitem_present_keys (BrokenFIFOBufferStateMachine.buffer_map self) key
                {| BrokenFIFOBuffer.max_length := BrokenFIFOBuffer.max_length b;
                   BrokenFIFOBuffer.buffer := append (BrokenFIFOBuffer.buffer b) item |}
                Hhandle) as [Hkeys Hsome].
    unfold registry_ok.
    cbn [BrokenFIFOBufferStateMachine.buffer_map
           BrokenFIFOBufferStateMachine.Buffer_Keys].
    rewrite Hkeys.
    split; [exact Hnd |]. split.
    + intros k. rewrite Hsome. apply Hdom.
    + intros k Hin. rewrite Hsome. destruct (Hbundle k Hin). split; [assumption |].
      apply elem_of_app. left. assumption.
  - specialize (Hhandle key eq_refl).
    destruct (getitem_present _ key Hhandle) as (b & Hget & _).
    unfold BrokenFIFOBufferStateMachine.check_empty. rewrite Hget. simpl. eauto.
  - specialize (Hhandle key eq_refl).
    destruct (getitem_present _ key Hhandle) as (b & Hget & _).
    unfold BrokenFIFOBufferStateMachine.check_full. rewrite Hget. simpl. eauto.
  - specialize (Hhandle key eq_refl).
    destruct (getitem_present _ key Hhandle) as (b & Hget & _).
    unfold BrokenFIFOBufferStateMachine.check_size. rewrite Hget. simpl. eauto.
Qed.

Lemma trace_registry_ok rules self :
  trace_broken rules self → registry_ok rules self.
Proof.
  induction 1 as [| rules r self self' _ IH Helig Hstep].
  - unfold registry_ok. simpl. split; [apply NoDup_nil_2 |]. split.
    + intros key. rewrite lookup_empty. split.
      * intros Hin. inversion Hin.
      * intros [v Hv]. discriminate.
    + intros key Hin. inversion Hin.
  - destruct (step_registry_ok rules self r IH Helig) as (self'' & Hstep' & Hok).
    rewrite Hstep in Hstep'. injection Hstep' as <-. exact Hok.
Qed.

(** ** The correct machine *)

Lemma step_without_buffer self r :
  FIFOBufferStateMachine.buffer self = None →
  (∀ max_length, r ≠ FIFOBufferStateMachine.InitializeBuffer max_length) →
  FIFOBufferStateMachine.step self r = Ok self.
Proof.
  intros Hnone Hrule.
  destruct r as [max_length | item | | | | |]; simpl;
    [exfalso; apply (Hrule max_length); reflexivity | ..];
    unfold FIFOBufferStateMachine.add_item, FIFOBufferStateMachine.remove_item,
      FIFOBufferStateMachine.peek_item, FIFOBufferStateMachine.check_empty,
      FIFOBufferStateMachine.check_full, FIFOBufferStateMachine.check_size;
    rewrite Hnone; reflexivity.
Qed.

(** A rule other than [initialize_buffer] that leaves the machine as it is
    keeps [machine_ok]. *)
Lemma machine_ok_unchanged rules r self :
  machine_ok rules self →
  (∀ max_length, r ≠ FIFOBufferStateMachine.InitializeBuffer max_length) →
  machine_ok (rules ++ [r]) self.
Proof.
  unfold machine_ok. intros Hok Hrule.
  destruct (FIFOBufferStateMachine.buffer self) as [b |].
  - destruct Hok as (Hwf & Hcap & max_length & Hran).
    split; [exact Hwf |]. split; [exact Hcap |]. exists max_length.
    apply elem_of_app. left. exact Hran.
  - destruct Hok as [Hinit Hnever]. split; [exact Hinit |].
    intros max_length Hin. apply elem_of_app in Hin as [Hin | Hin].
    + exact (Hnever _ Hin).
    + apply list_elem_of_singleton in Hin. exact (Hrule max_length (eq_sym Hin)).
Qed.

(** A rule that puts a well-formed buffer of the same capacity in the place
    of the one the machine holds keeps [machine_ok]. *)
Lemma machine_ok_updated rules r self b b' :
  machine_ok rules self →
  FIFOBufferStateMachine.buffer self = Some b →
  wf b' →
  FIFOBuffer.max_length b' = FIFOBuffer.max_length b →
  machine_ok (rules ++ [r])
    {| FIFOBufferStateMachine.buffer := Some b';
       FIFOBufferStateMachine.max_length := FIFOBufferStateMachine.max_length self |}.
Proof.
  unfold machine_ok. intros Hok Hbuf Hwf' Hml. rewrite Hbuf in Hok. simpl.
  destruct Hok as (_ & Hcap & max_length & Hran).
  split; [exact Hwf' |]. split; [congruence |]. exists max_length.
  apply elem_of_app. left. exact Hran.
Qed.

Lemma step_machine_ok rules self r :
  machine_ok rules self →
  FIFOBufferStateMachine.eligible self r = true →
  ∃ self', FIFOBufferStateMachine.step self r = Ok self' ∧
           machine_ok (rules ++ [r]) self'.
Proof.
  intros Hok Helig.
  destruct (FIFOBufferStateMachine.buffer self) as [b |] eqn:Hbuf.
  2: { destruct r as [max_length | item | | | | |].
       2-7: (exists self; split;
             [apply step_without_buffer; [exact Hbuf | discriminate]
             | apply machine_ok_unchanged; [exact Hok | discriminate]]).
       simpl in Helig. apply andb_true_iff in Helig as [Hlo _].
       apply Z.leb_le in Hlo. simpl.
       unfold FIFOBufferStateMachine.initialize_buffer.
       rewrite init_positive by lia. simpl. eexists. split; [reflexivity |].
       unfold machine_ok. simpl. split.
       - unfold wf, FIFOBuffer.size. simpl. change (len []) with 0. lia.
       - split; [reflexivity |]. exists max_length.
         apply elem_of_app. right. apply list_elem_of_singleton. reflexivity. }
  assert (Hwf : wf b) by (unfold machine_ok in Hok; rewrite Hbuf in Hok; apply Hok).
  destruct r as [max_length | item | | | | |]; simpl.
  - simpl in Helig. apply andb_true_iff in Helig as [Hlo _].
    apply Z.leb_le in Hlo.
    unfold FIFOBufferStateMachine.initialize_buffer.
    rewrite init_positive by lia. simpl. eexists. split; [reflexivity |].
    unfold machine_ok. simpl. split.
    + unfold wf, FIFOBuffer.size. simpl. change (len []) with 0. lia.
    + split; [reflexivity |]. exists max_length.
      apply elem_of_app. right. apply list_elem_of_singleton. reflexivity.
  - unfold FIFOBufferStateMachine.add_item. rewrite Hbuf.
    destruct (add_wf b item Hwf) as (b' & -> & Hwf' & Hml). simpl.
    eexists. split; [reflexivity |]. eapply machine_ok_updated; eassumption.
  - unfold FIFOBufferStateMachine.remove_item. rewrite Hbuf.
    destruct (remove_wf b Hwf) as (x & b' & -> & Hwf' & Hml). simpl.
    eexists. split; [reflexivity |]. eapply machine_ok_updated; eassumption.
  - unfold FIFOBufferStateMachine.peek_item. rewrite Hbuf.
    destruct (peek_total b) as (x & ->). simpl.
    eexists. split; [reflexivity |]. apply machine_ok_unchanged; [exact Hok | discriminate].
  - unfold FIFOBufferStateMachine.check_empty. rewrite Hbuf.
    eexists. split; [reflexivity |]. apply machine_ok_unchanged; [exact Hok | discriminate].
  - unfold FIFOBufferStateMachine.check_full. rewrite Hbuf.
    eexists. split; [reflexivity |]. apply machine_ok_unchanged; [exact Hok | discriminate].
  - unfold FIFOBufferStateMachine.check_size. rewrite Hbuf.
    eexists. split; [reflexivity |]. apply machine_ok_unchanged; [exact Hok | discriminate].
Qed.

Lemma trace_machine_ok rules self :
  trace_correct rules self → machine_ok rules self.
Proof.
  induction 1 as [| rules r self self' _ IH Helig Hstep].
  - unfold machine_ok. simpl. split; [reflexivity |].
    intros max_length Hin. inversion Hin.
  - destruct (step_machine_ok rules self r IH Helig) as (self'' & Hstep' & Hok).
    rewrite Hstep in Hstep'. injection Hstep' as <-. exact Hok.
Qed.

(** In such a state both invariants of the correct machine pass. *)
Lemma machine_ok_invariants rules self :
  machine_ok rules self → FIFOBufferStateMachine.check_invariants self = Ok tt.
Proof.
  unfold machine_ok, FIFOBufferStateMachine.check_invariants,
    FIFOBufferStateMachine.buffer_length_invariant,
    FIFOBufferStateMachine.buffer_not_negative.
  destruct (FIFOBufferStateMachine.buffer self) as [b |]; [| reflexivity].
  intros ([_ [Hlo Hhi]] & Hcap & _). rewrite Hcap.
  destruct (Z.leb_spec (FIFOBuffer.size b) (FIFOBuffer.max_length b)); [| lia].
  simpl. rewrite Z.geb_leb.
  destruct (Z.leb_spec 0 (FIFOBuffer.size b)); [reflexivity | lia].
Qed.

Lemma steps_correct_complete rules :
  ∀ earlier self,
    machine_ok earlier self →
    Forall (fun r => FIFOBufferStateMachine.eligible self r = true) rules →
    ∃ final,
      steps FIFOBufferStateMachine.step FIFOBufferStateMachine.check_invariants
            self rules = Completed final.
Proof.
  induction rules as [| r rest IH]; intros earlier self Hok Helig; simpl.
  - eauto.
  - apply Forall_cons in Helig as [Hr Hrest].
    destruct (step_machine_ok earlier self r Hok Hr) as (self' & -> & Hok').
    rewrite (machine_ok_invariants _ _ Hok').
    apply (IH (earlier ++ [r]) self' Hok').
    eapply Forall_impl; [exact Hrest |].
    intros r' Hr'. destruct r'; exact Hr'.
Qed.

(** X13. The driver never fails the correct machine: whatever rules the
    strategies produce, no rule raises, both invariants hold after every
    rule, and the run ends in [Completed]. *)
Theorem correct_machine_completes (rules : list FIFOBufferStateMachine.rule) :
  Forall (fun r => FIFOBufferStateMachine.eligible FIFOBufferStateMachine.__init__ r
                   = true) rules →
  ∃ final, run_correct rules = Completed final.
Proof.
  intros Helig. unfold run_correct, run.
  assert (Hok : machine_ok [] FIFOBufferStateMachine.__init__).
  { unfold machine_ok. simpl. split; [reflexivity |].
    intros max_length Hin. inversion Hin. }
  rewrite (machine_ok_invariants _ _ Hok).
  exact (steps_correct_complete rules [] _ Hok Helig).
Qed.

(** The scenario of the design document on the correct machine: the run
    completes and the buffer holds the last three items. *)
Example correct_machine_scenario :
  run_correct
    [FIFOBufferStateMachine.InitializeBuffer 3;
     FIFOBufferStateMachine.AddItem 1; FIFOBufferStateMachine.AddItem 2;
     FIFOBufferStateMachine.AddItem 3; FIFOBufferStateMachine.AddItem 4;
     FIFOBufferStateMachine.AddItem 5]
  = Completed {| FIFOBufferStateMachine.buffer := Some (FIFOBuffer.Build 3 [3; 4; 5]);
                 FIFOBufferStateMachine.max_length := 3 |}.
Proof. vm_compute. reflexivity. Qed.

(** ** The state machines under the driver *)

(** C3, as stated, does not hold: the run of the scenario does not end in
    [Failed] with the buffer of capacity 3 at size 5. *)
Lemma C3_size_five_not_reached :
  ¬ ∃ trigger violation at_failure b,
      run_broken overflow_scenario = Failed trigger violation at_failure ∧
      Dict.getitem (BrokenFIFOBufferStateMachine.buffer_map at_failure) 3 = Ok b ∧
      BrokenFIFOBuffer.size b = 5.
Proof.
  intros (trigger & violation & at_failure & b & Hrun & Hget & Hsize).
  vm_compute in Hrun. injection Hrun as _ _ <-.
  vm_compute in Hget. injection Hget as <-.
  vm_compute in Hsize. discriminate.
Qed.

(** C3, amended.  The run of the scenario ends in [Failed] right after the
    fourth add: [buffer_length_invariant] raises with size 4 against
    [max_length] 3, the buffer holding [1; 2; 3; 4]; the fifth add is not
    applied.  Applied without the invariant checks in between, the six rules
    leave the buffer at size 5, where [buffer_length_invariant] raises as
    well; five adds on a bare [BrokenFIFOBuffer] of capacity 3 give size 5. *)
Theorem C3_overflow_detected :
  run_broken overflow_scenario =
    Failed (Some (BrokenFIFOBufferStateMachine.AddItem 4 3))
           (AssertionError (SizeExceeds 4 3))
           (one_buffer [1; 2; 3; 4]) ∧
  BrokenFIFOBufferStateMachine.buffer_length_invariant (one_buffer [1; 2; 3])
    = Ok tt ∧
  BrokenFIFOBufferStateMachine.buffer_length_invariant (one_buffer [1; 2; 3; 4])
    = Raise (AssertionError (SizeExceeds 4 3)) ∧
  trace_broken overflow_scenario (one_buffer [1; 2; 3; 4; 5]) ∧
  BrokenFIFOBufferStateMachine.buffer_length_invariant (one_buffer [1; 2; 3; 4; 5])
    = Raise (AssertionError (SizeExceeds 5 3)) ∧
  ∃ b, broken_add_all (BrokenFIFOBuffer.Build 3 []) [1; 2; 3; 4; 5] = Ok b ∧
       BrokenFIFOBuffer.size b = 5 ∧
       (BrokenFIFOBuffer.size b <=? BrokenFIFOBuffer.max_length b) = false.
Proof.
  split; [vm_compute; reflexivity |].
  split; [vm_compute; reflexivity |].
  split; [vm_compute; reflexivity |].
  split.
  - unfold overflow_scenario.
    apply (trace_snoc [_; _; _; _; _] _ (one_buffer [1; 2; 3; 4]));
      [| vm_compute; reflexivity | vm_compute; reflexivity].
    apply (trace_snoc [_; _; _; _] _ (one_buffer [1; 2; 3]));
      [| vm_compute; reflexivity | vm_compute; reflexivity].
    apply (trace_snoc [_; _; _] _ (one_buffer [1; 2]));
      [| vm_compute; reflexivity | vm_compute; reflexivity].
    apply (trace_snoc [_; _] _ (one_buffer [1]));
      [| vm_compute; reflexivity | vm_compute; reflexivity].
    apply (trace_snoc [_] _ (one_buffer []));
      [| vm_compute; reflexivity | vm_compute; reflexivity].
    apply (trace_snoc [] _ BrokenFIFOBufferStateMachine.__init__);
      [| vm_compute; reflexivity | vm_compute; reflexivity].
    apply trace_nil.
  - split; [vm_compute; reflexivity |].
    eexists. split; [reflexivity |]. split; vm_compute; reflexivity.
Qed.

(** C8. In every state a run of the defective machine reaches,
    [initialize_buffer] returns the capacity it was given as the handle.
    When that capacity is already a key of the registry the machine is left
    exactly as it was: no buffer is constructed or replaced, and the buffer
    stored under the key is the one that was there.  A second call with the
    same capacity changes nothing after the first.  The registry lists every
    key once. *)
Theorem C8_initialize_idempotent
    (rules : list BrokenFIFOBufferStateMachine.rule)
    (self : BrokenFIFOBufferStateMachine.t) (max_length : Z) :
  trace_broken rules self →
  ∃ after,
    BrokenFIFOBufferStateMachine.initialize_buffer self max_length
      = Ok (max_length, after) ∧
    (Dict.contains (BrokenFIFOBufferStateMachine.buffer_map self) max_length = true →
       after = self) ∧
    (∀ b, Dict.getitem (BrokenFIFOBufferStateMachine.buffer_map self) max_length = Ok b →
          Dict.getitem (BrokenFIFOBufferStateMachine.buffer_map after) max_length = Ok b) ∧
    Dict.contains (BrokenFIFOBufferStateMachine.buffer_map after) max_length = true ∧
    BrokenFIFOBufferStateMachine.initialize_buffer after max_length
      = Ok (max_length, after) ∧
    NoDup (Dict.keys (BrokenFIFOBufferStateMachine.buffer_map self)) ∧
    NoDup (Dict.keys (BrokenFIFOBufferStateMachine.buffer_map after)).
Proof.
  intros Htrace.
  pose proof (trace_registry_ok rules self Htrace) as Hok.
  destruct (initialize_buffer_total self max_length)
    as (after & Hinit & Hkeys & Hsame & Hnew).
  assert (Hafter : Dict.contains (BrokenFIFOBufferStateMachine.buffer_map after)
                     max_length = true).
  { destruct (Dict.contains (BrokenFIFOBufferStateMachine.buffer_map self) max_length)
      eqn:Hc.
    - rewrite (Hsame eq_refl). exact Hc.
    - rewrite (Hnew eq_refl). apply contains_setitem. }
  exists after. split; [exact Hinit |]. split; [exact Hsame |]. split.
  { intros b Hget. rewrite Hsame; [exact Hget |].
    apply contains_true. unfold Dict.getitem in Hget.
    destruct (Dict.store (BrokenFIFOBufferStateMachine.buffer_map self) !! max_length);
      [eauto | discriminate]. }
  split; [exact Hafter |]. split.
  { unfold BrokenFIFOBufferStateMachine.initialize_buffer. rewrite Hafter.
    reflexivity. }
  split; [apply Hok |].
  destruct (Dict.contains (BrokenFIFOBufferStateMachine.buffer_map self) max_length)
    eqn:Hc.
  - rewrite (Hsame eq_refl). apply Hok.
  - rewrite (Hnew eq_refl). destruct Hok as (Hnd & Hdom & _).
    unfold Dict.keys, Dict.setitem in *. simpl. rewrite Hc.
    apply contains_false in Hc.
    apply NoDup_app. split; [exact Hnd |]. split; [| apply NoDup_singleton].
    intros k Hk Hk'. apply list_elem_of_singleton in Hk' as ->.
    apply Hdom in Hk as [v Hv]. congruence.
Qed.

Lemma C8_initialize_idempotent_witness :
  ∃ after,
    BrokenFIFOBufferStateMachine.initialize_buffer (one_buffer [1; 2]) 3
      = Ok (3, after) ∧
    (Dict.contains (BrokenFIFOBufferStateMachine.buffer_map (one_buffer [1; 2])) 3 = true →
       after = one_buffer [1; 2]) ∧
    (∀ b, Dict.getitem (BrokenFIFOBufferStateMachine.buffer_map (one_buffer [1; 2])) 3
            = Ok b →
          Dict.getitem (BrokenFIFOBufferStateMachine.buffer_map after) 3 = Ok b) ∧
    Dict.contains (BrokenFIFOBufferStateMachine.buffer_map after) 3 = true ∧
    BrokenFIFOBufferStateMachine.initialize_buffer after 3 = Ok (3, after) ∧
    NoDup (Dict.keys (BrokenFIFOBufferStateMachine.buffer_map (one_buffer [1; 2]))) ∧
    NoDup (Dict.keys (BrokenFIFOBufferStateMachine.buffer_map after)).
Proof.
  apply (C8_initialize_idempotent
           [BrokenFIFOBufferStateMachine.InitializeBuffer 3;
            BrokenFIFOBufferStateMachine.AddItem 1 3;
            BrokenFIFOBufferStateMachine.AddItem 2 3]
           (one_buffer [1; 2]) 3).
  apply (trace_snoc [_; _] _ (one_buffer [1]));
    [| vm_compute; reflexivity | vm_compute; reflexivity].
  apply (trace_snoc [_] _ (one_buffer []));
    [| vm_compute; reflexivity | vm_compute; reflexivity].
  apply (trace_snoc [] _ BrokenFIFOBufferStateMachine.__init__);
    [| vm_compute; reflexivity | vm_compute; reflexivity].
  apply trace_nil.
Defined.

(** C9. Along every execution of either machine no step reaches for a
    buffer that does not exist.  In the defective machine a rule that takes
    a handle is eligible only with a handle from the bundle; such a handle
    is a key of the registry and was returned by an [initialize_buffer] rule
    that ran earlier, so the lookup succeeds and the step does not raise.
    The correct machine holds a buffer only after an [initialize_buffer]
    rule ran; until then every other rule returns at once, leaving the
    machine untouched, and no step of it raises. *)
Theorem C9_no_missing_instance :
  (∀ rules self r,
     trace_broken rules self →
     BrokenFIFOBufferStateMachine.eligible self r = true →
     (∃ self', BrokenFIFOBufferStateMachine.step self r = Ok self') ∧
     (∀ key, BrokenFIFOBufferStateMachine.handle r = Some key →
        (∃ b, Dict.getitem (BrokenFIFOBufferStateMachine.buffer_map self) key = Ok b) ∧
        BrokenFIFOBufferStateMachine.InitializeBuffer key ∈ rules)) ∧
  (∀ rules self r,
     trace_correct rules self →
     FIFOBufferStateMachine.eligible self r = true →
     (∃ self', FIFOBufferStateMachine.step self r = Ok self') ∧
     (is_Some (FIFOBufferStateMachine.buffer self) →
        ∃ max_length, FIFOBufferStateMachine.InitializeBuffer max_length ∈ rules) ∧
     ((∀ max_length, FIFOBufferStateMachine.InitializeBuffer max_length ∉ rules) →
        FIFOBufferStateMachine.buffer self = None ∧
        ((∀ max_length, r ≠ FIFOBufferStateMachine.InitializeBuffer max_length) →
           FIFOBufferStateMachine.step self r = Ok self))).
Proof.
  split.
  - intros rules self r Htrace Helig.
    pose proof (trace_registry_ok rules self Htrace) as Hok.
    split.
    + destruct (step_registry_ok rules self r Hok Helig) as (self' & Hstep & _).
      eauto.
    + intros key Hkey. destruct Hok as (_ & _ & Hbundle).
      assert (Hin : key ∈ BrokenFIFOBufferStateMachine.Buffer_Keys self).
      { destruct r; simpl in *; try discriminate;
          injection Hkey as <-; apply bool_decide_eq_true in Helig; exact Helig. }
      destruct (Hbundle key Hin) as [Hsome Hran]. split; [| exact Hran].
      destruct (getitem_present _ key Hsome) as (b & Hget & _). eauto.
  - intros rules self r Htrace Helig.
    pose proof (trace_machine_ok rules self Htrace) as Hok.
    split.
    + destruct (step_machine_ok rules self r Hok Helig) as (self' & Hstep & _).
      eauto.
    + unfold machine_ok in Hok.
      destruct (FIFOBufferStateMachine.buffer self) as [b |] eqn:Hbuf.
      * destruct Hok as (_ & _ & max_length & Hran). split; [eauto |].
        intros Hnever. exfalso. exact (Hnever _ Hran).
      * split; [intros [b Hb]; discriminate |].
        intros _. split; [reflexivity |].
        intros Hrule. apply step_without_buffer; assumption.
Qed.

Lemma C9_no_missing_instance_witness :
  ((∃ self', BrokenFIFOBufferStateMachine.step (one_buffer [1])
               (BrokenFIFOBufferStateMachine.AddItem 2 3) = Ok self') ∧
   (∀ key, BrokenFIFOBufferStateMachine.handle
             (BrokenFIFOBufferStateMachine.AddItem 2 3) = Some key →
      (∃ b, Dict.getitem (BrokenFIFOBufferStateMachine.buffer_map (one_buffer [1])) key
              = Ok b) ∧
      BrokenFIFOBufferStateMachine.InitializeBuffer key ∈
        [BrokenFIFOBufferStateMachine.InitializeBuffer 3;
         BrokenFIFOBufferStateMachine.AddItem 1 3])) ∧
  FIFOBufferStateMachine.step FIFOBufferStateMachine.__init__
    (FIFOBufferStateMachine.AddItem 1) = Ok FIFOBufferStateMachine.__init__.
Proof.
  destruct C9_no_missing_instance as [Hbroken Hcorrect]. split.
  - apply (Hbroken [BrokenFIFOBufferStateMachine.InitializeBuffer 3;
                    BrokenFIFOBufferStateMachine.AddItem 1 3]
                   (one_buffer [1]) (BrokenFIFOBufferStateMachine.AddItem 2 3)).
    + apply (trace_snoc [_] _ (one_buffer []));
        [| vm_compute; reflexivity | vm_compute; reflexivity].
      apply (trace_snoc [] _ BrokenFIFOBufferStateMachine.__init__);
        [| vm_compute; reflexivity | vm_compute; reflexivity].
      apply trace_nil.
    + vm_compute. reflexivity.
  - destruct (Hcorrect [] FIFOBufferStateMachine.__init__
                (FIFOBufferStateMachine.AddItem 1)) as (_ & _ & Hbefore).
    + apply trace_nil.
    + reflexivity.
    + apply Hbefore.
      * intros max_length Hin. inversion Hin.
      * intros max_length. discriminate.
Defined.

(** * Further properties of the buffers *)

(** One [add] seen as a window: the result is the old contents followed by
    the item, cut from the front down to the capacity. *)
Lemma add_window (b : FIFOBuffer.t) (item : Z) :
  wf b →
  FIFOBuffer.add b item =
    Ok (FIFOBuffer.Build (FIFOBuffer.max_length b)
          (drop (length (FIFOBuffer.buffer b ++ [item])
                 - Z.to_nat (FIFOBuffer.max_length b))%nat
                (FIFOBuffer.buffer b ++ [item]))).
Proof.
  intros [Hpos [_ Hle]]. unfold FIFOBuffer.size, len in Hle.
  rewrite length_app. simpl length.
  destruct (Z_lt_le_dec (len (FIFOBuffer.buffer b)) (FIFOBuffer.max_length b))
    as [Hlt | Hge].
  - rewrite add_below_capacity by exact Hlt. unfold len in Hlt.
    replace (length (FIFOBuffer.buffer b) + 1
             - Z.to_nat (FIFOBuffer.max_length b))%nat with 0%nat by lia.
    reflexivity.
  - unfold len in Hge.
    destruct (FIFOBuffer.buffer b) as [| oldest rest] eqn:Hbuf.
    + simpl in Hge. lia.
    + rewrite (add_at_capacity b item oldest rest Hbuf)
        by (rewrite Hbuf; unfold len; lia).
      simpl length in *.
      replace (S (length rest) + 1 - Z.to_nat (FIFOBuffer.max_length b))%nat
        with 1%nat by lia.
      reflexivity.
Qed.

Lemma add_all_window (items : list Z) (b : FIFOBuffer.t) :
  wf b →
  add_all b items =
    Ok (FIFOBuffer.Build (FIFOBuffer.max_length b)
          (drop (length (FIFOBuffer.buffer b ++ items)
                 - Z.to_nat (FIFOBuffer.max_length b))%nat
                (FIFOBuffer.buffer b ++ items))).
Proof.
  revert b. induction items as [| item rest IH]; intros b Hwf.
  - simpl. rewrite app_nil_r. destruct Hwf as [Hpos [_ Hle]].
    unfold FIFOBuffer.size, len in Hle.
    replace (length (FIFOBuffer.buffer b) - Z.to_nat (FIFOBuffer.max_length b))%nat
      with 0%nat by lia.
    destruct b. reflexivity.
  - simpl. destruct (add_wf b item Hwf) as (b1 & Hadd & Hwf1 & Hml).
    rewrite Hadd. simpl. rewrite (IH b1 Hwf1), Hml.
    rewrite (add_window b item Hwf) in Hadd. injection Hadd as <-. simpl.
    set (l := FIFOBuffer.buffer b ++ [item]).
    set (cap := Z.to_nat (FIFOBuffer.max_length b)).
    replace (FIFOBuffer.buffer b ++ item :: rest) with (l ++ rest)
      by (unfold l; rewrite <- app_assoc; reflexivity).
    rewrite <- (drop_app_le l rest (length l - cap)) by lia.
    rewrite drop_drop. f_equal. f_equal.
    rewrite length_drop, !length_app. f_equal. lia.
Qed.

(** X1. A run of adds is a sliding window: on a buffer produced by public
    use, adding any items, however many, never raises and leaves the last
    [capacity] elements of the old contents followed by the items. *)
Theorem X1_add_all_sliding_window (b : FIFOBuffer.t) (items : list Z) :
  reachable b →
  ∃ b',
    add_all b items = Ok b' ∧
    FIFOBuffer.max_length b' = FIFOBuffer.max_length b ∧
    FIFOBuffer.buffer b' =
      drop (length (FIFOBuffer.buffer b ++ items)
            - Z.to_nat (FIFOBuffer.max_length b))%nat
           (FIFOBuffer.buffer b ++ items) ∧
    FIFOBuffer.size b' =
      Z.min (FIFOBuffer.size b + len items) (FIFOBuffer.max_length b).
Proof.
  intros Hreach. pose proof (reachable_wf b Hreach) as Hwf.
  eexists. split; [apply add_all_window; exact Hwf |].
  split; [reflexivity |]. split; [reflexivity |].
  destruct Hwf as [Hpos [_ Hle]].
  unfold FIFOBuffer.size, len in *. simpl.
  rewrite length_drop, length_app. lia.
Qed.

Lemma X1_add_all_sliding_window_witness :
  ∃ b',
    add_all (FIFOBuffer.Build 2 [1]) [2; 3; 4; 5] = Ok b' ∧
    FIFOBuffer.max_length b' = 2 ∧
    FIFOBuffer.buffer b' = drop (5 - 2)%nat [1; 2; 3; 4; 5] ∧
    FIFOBuffer.size b' = Z.min (1 + 4) 2.
Proof.
  apply (X1_add_all_sliding_window (FIFOBuffer.Build 2 [1]) [2; 3; 4; 5]).
  apply (reach_call (FIFOBuffer.Build 2 []) (Add 1) VNone); [| reflexivity].
  apply (reach_new 2). reflexivity.
Defined.

(** X2. [add] never loses the item it is given: on a buffer produced by
    public use the item is the newest element afterwards, [peek] sees the
    oldest element that survived, and the size grows by one up to the
    capacity. *)
Theorem X2_add_keeps_new_item (b : FIFOBuffer.t) (item : Z) :
  reachable b →
  ∃ b',
    FIFOBuffer.add b item = Ok b' ∧
    last (FIFOBuffer.buffer b') = Some item ∧
    FIFOBuffer.size b' = Z.min (FIFOBuffer.size b + 1) (FIFOBuffer.max_length b) ∧
    FIFOBuffer.is_empty b' = false ∧
    ∃ oldest, FIFOBuffer.peek b' = Ok (Some oldest).
Proof.
  intros Hreach. pose proof (reachable_wf b Hreach) as Hwf.
  destruct Hwf as [Hpos [_ Hle]]. unfold FIFOBuffer.size in *.
  destruct (Z_lt_le_dec (len (FIFOBuffer.buffer b)) (FIFOBuffer.max_length b))
    as [Hlt | Hge].
  - eexists. split; [apply add_below_capacity; exact Hlt |]. simpl.
    split; [apply last_snoc |].
    pose proof (len_nonneg (FIFOBuffer.buffer b)).
    unfold FIFOBuffer.is_empty, FIFOBuffer.peek. simpl.
    rewrite len_app. change (len [item]) with 1.
    split; [lia |]. split; [apply Z.eqb_neq; lia |].
    destruct (FIFOBuffer.buffer b); simpl; eauto.
  - destruct (FIFOBuffer.buffer b) as [| oldest rest] eqn:Hbuf.
    + change (len []) with 0 in Hge. lia.
    + eexists. split.
      { apply (add_at_capacity b item oldest rest Hbuf). rewrite Hbuf. exact Hge. }
      simpl. split; [apply last_snoc |].
      rewrite len_cons in *. pose proof (len_nonneg rest).
      unfold FIFOBuffer.is_empty, FIFOBuffer.peek. simpl.
      rewrite len_app. change (len [item]) with 1.
      split; [lia |]. split; [apply Z.eqb_neq; lia |].
      destruct rest; simpl; eauto.
Qed.

Lemma X2_add_keeps_new_item_witness :
  ∃ b',
    FIFOBuffer.add (FIFOBuffer.Build 1 [4]) 9 = Ok b' ∧
    last (FIFOBuffer.buffer b') = Some 9 ∧
    FIFOBuffer.size b' = Z.min (1 + 1) 1 ∧
    FIFOBuffer.is_empty b' = false ∧
    ∃ oldest, FIFOBuffer.peek b' = Ok (Some oldest).
Proof.
  apply (X2_add_keeps_new_item (FIFOBuffer.Build 1 [4]) 9).
  apply (reach_call (FIFOBuffer.Build 1 []) (Add 4) VNone); [| reflexivity].
  apply (reach_new 1). reflexivity.
Defined.

(** X3. Repeated [remove] drains in order and then keeps answering [None]:
    [n] calls return the first [n] items, oldest first, followed by one
    [None] for every call made after the buffer ran empty; what is left is
    the contents without those items.  No call raises. *)
Theorem X3_remove_n_drains (n : nat) (b : FIFOBuffer.t) :
  remove_n n b =
    Ok (map Some (take n (FIFOBuffer.buffer b))
          ++ replicate (n - length (FIFOBuffer.buffer b)) None,
        FIFOBuffer.Build (FIFOBuffer.max_length b) (drop n (FIFOBuffer.buffer b))).
Proof.
  revert b. induction n as [| n IH]; intros b.
  - simpl. rewrite drop_0. destruct b. reflexivity.
  - simpl. unfold FIFOBuffer.remove.
    destruct (FIFOBuffer.buffer b) as [| oldest rest] eqn:Hbuf.
    + simpl. rewrite IH, Hbuf. simpl.
      rewrite take_nil, drop_nil. simpl. rewrite Nat.sub_0_r. reflexivity.
    + simpl. rewrite IH. reflexivity.
Qed.

(** X4. On a buffer produced by public use: it is never empty and full at
    once; a full buffer stays full under [add]; and after one [remove] a
    full buffer is no longer full. *)
Theorem X4_full_and_empty (b : FIFOBuffer.t) (item : Z) :
  reachable b →
  ¬ (FIFOBuffer.is_empty b = true ∧ FIFOBuffer.is_full b = true) ∧
  (FIFOBuffer.is_full b = true →
     (∃ b', FIFOBuffer.add b item = Ok b' ∧ FIFOBuffer.is_full b' = true) ∧
     (∃ oldest b', FIFOBuffer.remove b = Ok (Some oldest, b') ∧
                   FIFOBuffer.is_full b' = false)).
Proof.
  intros Hreach. pose proof (reachable_wf b Hreach) as Hwf.
  destruct Hwf as [Hpos [_ Hle]].
  unfold FIFOBuffer.size, FIFOBuffer.is_empty, FIFOBuffer.is_full in *.
  split.
  - intros [Hempty Hfull]. apply Z.eqb_eq in Hempty, Hfull. lia.
  - intros Hfull. apply Z.eqb_eq in Hfull.
    destruct (FIFOBuffer.buffer b) as [| oldest rest] eqn:Hbuf.
    + change (len []) with 0 in Hfull. lia.
    + rewrite len_cons in Hfull. split.
      * eexists. split.
        { apply (add_at_capacity b item oldest rest Hbuf).
          rewrite Hbuf, len_cons. lia. }
        simpl. apply Z.eqb_eq. rewrite len_app. change (len [item]) with 1. lia.
      * exists oldest. eexists. unfold FIFOBuffer.remove. rewrite Hbuf. simpl.
        split; [reflexivity |]. simpl. apply Z.eqb_neq. lia.
Qed.

Lemma X4_full_and_empty_witness :
  ¬ (FIFOBuffer.is_empty (FIFOBuffer.Build 1 [4]) = true ∧
     FIFOBuffer.is_full (FIFOBuffer.Build 1 [4]) = true) ∧
  (FIFOBuffer.is_full (FIFOBuffer.Build 1 [4]) = true →
     (∃ b', FIFOBuffer.add (FIFOBuffer.Build 1 [4]) 9 = Ok b' ∧
            FIFOBuffer.is_full b' = true) ∧
     (∃ oldest b', FIFOBuffer.remove (FIFOBuffer.Build 1 [4]) = Ok (Some oldest, b') ∧
                   FIFOBuffer.is_full b' = false)).
Proof.
  apply (X4_full_and_empty (FIFOBuffer.Build 1 [4]) 9).
  apply (reach_call (FIFOBuffer.Build 1 []) (Add 4) VNone); [| reflexivity].
  apply (reach_new 1). reflexivity.
Defined.

Lemma broken_add_all_appends (items : list Z) (b : BrokenFIFOBuffer.t) :
  broken_add_all b items =
    Ok (BrokenFIFOBuffer.Build (BrokenFIFOBuffer.max_length b)
          (BrokenFIFOBuffer.buffer b ++ items)).
Proof.
  revert b. induction items as [| item rest IH]; intros b; simpl.
  - rewrite app_nil_r. destruct b. reflexivity.
  - rewrite IH. simpl. unfold append. rewrite <- app_assoc. reflexivity.
Qed.

(** X5. The defective buffer grows without bound: any run of adds succeeds
    and leaves the old contents followed by all the items, nothing evicted.
    As soon as more items were added than the capacity had room for, the
    size exceeds [max_length] and [is_full] answers false. *)
Theorem X5_broken_add_unbounded (b : BrokenFIFOBuffer.t) (items : list Z) :
  ∃ b',
    broken_add_all b items = Ok b' ∧
    BrokenFIFOBuffer.max_length b' = BrokenFIFOBuffer.max_length b ∧
    BrokenFIFOBuffer.buffer b' = BrokenFIFOBuffer.buffer b ++ items ∧
    BrokenFIFOBuffer.size b' = BrokenFIFOBuffer.size b + len items ∧
    (BrokenFIFOBuffer.max_length b < BrokenFIFOBuffer.size b + len items →
       (BrokenFIFOBuffer.size b' <=? BrokenFIFOBuffer.max_length b') = false ∧
       BrokenFIFOBuffer.is_full b' = false).
Proof.
  eexists. split; [apply broken_add_all_appends |]. simpl.
  unfold BrokenFIFOBuffer.size, BrokenFIFOBuffer.is_full. simpl.
  rewrite len_app. repeat split; try reflexivity.
  - apply Z.leb_gt. assumption.
  - apply Z.eqb_neq. unfold BrokenFIFOBuffer.size in *. lia.
Qed.

Lemma X5_broken_add_unbounded_witness :
  ∃ b',
    broken_add_all (BrokenFIFOBuffer.Build 2 [1]) [2; 3] = Ok b' ∧
    BrokenFIFOBuffer.max_length b' = 2 ∧
    BrokenFIFOBuffer.buffer b' = [1; 2; 3] ∧
    BrokenFIFOBuffer.size b' = 3 ∧
    (BrokenFIFOBuffer.size b' <=? BrokenFIFOBuffer.max_length b') = false ∧
    BrokenFIFOBuffer.is_full b' = false.
Proof.
  destruct (X5_broken_add_unbounded (BrokenFIFOBuffer.Build 2 [1]) [2; 3])
    as (b' & Hrun & Hml & Hbuf & Hsize & Hover).
  exists b'. split; [exact Hrun |]. split; [exact Hml |]. split; [exact Hbuf |].
  split; [exact Hsize |]. apply Hover. vm_compute. reflexivity.
Defined.

(** A full buffer produced by public use holds at least one item. *)
Lemma full_nonempty (b : FIFOBuffer.t) :
  reachable b → FIFOBuffer.is_full b = true →
  ∃ oldest rest,
    FIFOBuffer.buffer b = oldest :: rest ∧
    FIFOBuffer.max_length b <= len (FIFOBuffer.buffer b).
Proof.
  intros Hreach Hfull. destruct (reachable_wf b Hreach) as [Hpos _].
  unfold FIFOBuffer.is_full in Hfull. apply Z.eqb_eq in Hfull.
  destruct (FIFOBuffer.buffer b) as [| oldest rest].
  - change (len []) with 0 in Hfull. lia.
  - exists oldest, rest. split; [reflexivity | lia].
Qed.

(** X6. Where the guards of the correct class do not fire, the defective
    class does the same: the three queries always agree; below capacity
    [add] agrees; on a non-empty buffer [remove] and [peek] agree.  On a
    full buffer produced by public use they part: the correct [add] keeps
    the size, the defective one ends one item larger. *)
Theorem X6_classes_agree_off_the_guards (b : FIFOBuffer.t) (item : Z) :
  (BrokenFIFOBuffer.is_empty (to_broken b) = FIFOBuffer.is_empty b ∧
   BrokenFIFOBuffer.is_full (to_broken b) = FIFOBuffer.is_full b ∧
   BrokenFIFOBuffer.size (to_broken b) = FIFOBuffer.size b) ∧
  (FIFOBuffer.size b < FIFOBuffer.max_length b →
     ∃ b', FIFOBuffer.add b item = Ok b' ∧
           BrokenFIFOBuffer.add (to_broken b) item = Ok (to_broken b')) ∧
  (FIFOBuffer.is_empty b = false →
     ∃ oldest b',
       FIFOBuffer.remove b = Ok (Some oldest, b') ∧
       BrokenFIFOBuffer.remove (to_broken b) = Ok (Some oldest, to_broken b') ∧
       FIFOBuffer.peek b = Ok (Some oldest) ∧
       BrokenFIFOBuffer.peek (to_broken b) = Ok (Some oldest)) ∧
  (reachable b → FIFOBuffer.is_full b = true →
     ∃ b1 b2,
       FIFOBuffer.add b item = Ok b1 ∧
       BrokenFIFOBuffer.add (to_broken b) item = Ok b2 ∧
       FIFOBuffer.size b1 = FIFOBuffer.size b ∧
       BrokenFIFOBuffer.size b2 = FIFOBuffer.size b + 1).
Proof.
  split; [repeat split |]. split; [| split].
  - intros Hlt. eexists. split; [apply add_below_capacity; exact Hlt |].
    reflexivity.
  - unfold FIFOBuffer.is_empty. intros Hne. apply Z.eqb_neq in Hne.
    destruct (FIFOBuffer.buffer b) as [| oldest rest] eqn:Hbuf.
    + change (len []) with 0 in Hne. lia.
    + exists oldest. eexists.
      unfold FIFOBuffer.remove, FIFOBuffer.peek, BrokenFIFOBuffer.remove,
        BrokenFIFOBuffer.peek, to_broken.
      rewrite Hbuf. simpl. repeat split.
  - intros Hreach Hfull.
    destruct (full_nonempty b Hreach Hfull) as (oldest & rest & Hbuf & Hlen).
    eexists. eexists.
    split; [apply (add_at_capacity b item oldest rest Hbuf); exact Hlen |].
    split; [reflexivity |].
    unfold FIFOBuffer.size, BrokenFIFOBuffer.size, to_broken, append. simpl.
    rewrite Hbuf, !len_app, !len_cons. change (len []) with 0. lia.
Qed.

Lemma X6_classes_agree_off_the_guards_witness :
  (∃ b', FIFOBuffer.add (FIFOBuffer.Build 2 [1]) 2 = Ok b' ∧
         BrokenFIFOBuffer.add (to_broken (FIFOBuffer.Build 2 [1])) 2
           = Ok (to_broken b')) ∧
  (∃ oldest b',
     FIFOBuffer.remove (FIFOBuffer.Build 2 [1]) = Ok (Some oldest, b') ∧
     BrokenFIFOBuffer.remove (to_broken (FIFOBuffer.Build 2 [1]))
       = Ok (Some oldest, to_broken b') ∧
     FIFOBuffer.peek (FIFOBuffer.Build 2 [1]) = Ok (Some oldest) ∧
     BrokenFIFOBuffer.peek (to_broken (FIFOBuffer.Build 2 [1])) = Ok (Some oldest)) ∧
  (∃ b1 b2,
     FIFOBuffer.add (FIFOBuffer.Build 1 [4]) 9 = Ok b1 ∧
     BrokenFIFOBuffer.add (to_broken (FIFOBuffer.Build 1 [4])) 9 = Ok b2 ∧
     FIFOBuffer.size b1 = FIFOBuffer.size (FIFOBuffer.Build 1 [4]) ∧
     BrokenFIFOBuffer.size b2 = FIFOBuffer.size (FIFOBuffer.Build 1 [4]) + 1).
Proof.
  destruct (X6_classes_agree_off_the_guards (FIFOBuffer.Build 2 [1]) 2)
    as (_ & Hadd & Hremove & _).
  destruct (X6_classes_agree_off_the_guards (FIFOBuffer.Build 1 [4]) 9)
    as (_ & _ & _ & Hfull).
  split; [apply Hadd; vm_compute; reflexivity |].
  split; [apply Hremove; reflexivity |].
  apply Hfull; [| reflexivity].
  apply (reach_call (FIFOBuffer.Build 1 []) (Add 4) VNone); [| reflexivity].
  apply (reach_new 1). reflexivity.
Defined.

(** * Further properties of the defective machine *)

Lemma for_each_ok (body : Z → result unit) (keys : list Z) :
  for_each body keys = Ok tt ↔ ∀ key, key ∈ keys → body key = Ok tt.
Proof.
  induction keys as [| k rest IH]; simpl.
  - split; [intros _ key Hin; inversion Hin | reflexivity].
  - split.
    + intros Hrun key Hin. destruct (body k) as [[] | e] eqn:Hk; [| discriminate].
      simpl in Hrun. apply elem_of_cons in Hin as [-> | Hin]; [exact Hk |].
      apply IH; assumption.
    + intros Hall. rewrite (Hall k) by (apply elem_of_cons; left; reflexivity).
      simpl. apply IH. intros key Hin. apply Hall. apply elem_of_cons. right.
      exact Hin.
Qed.

Lemma for_each_app (body : Z → result unit) (keys1 keys2 : list Z) :
  for_each body (keys1 ++ keys2) =
    (_ ← for_each body keys1; for_each body keys2).
Proof.
  induction keys1 as [| k rest IH]; simpl.
  - reflexivity.
  - destruct (body k) as [[] | e]; simpl; [exact IH | reflexivity].
Qed.

Lemma for_each_ext (body1 body2 : Z → result unit) (keys : list Z) :
  (∀ key, key ∈ keys → body1 key = body2 key) →
  for_each body1 keys = for_each body2 keys.
Proof.
  induction keys as [| k rest IH]; intros Hext; simpl.
  - reflexivity.
  - rewrite (Hext k) by (apply elem_of_cons; left; reflexivity).
    destruct (body2 k) as [[] | e]; simpl; [| reflexivity].
    apply IH. intros key Hin. apply Hext. apply elem_of_cons. right. exact Hin.
Qed.

(** With no key the precondition of the invariants is false. *)
Lemma has_keys_false self :
  Dict.keys (BrokenFIFOBufferStateMachine.buffer_map self) = [] ↔
  BrokenFIFOBufferStateMachine.has_keys self = false.
Proof.
  unfold BrokenFIFOBufferStateMachine.has_keys.
  destruct (Dict.keys (BrokenFIFOBufferStateMachine.buffer_map self)) as [| k rest].
  - split; reflexivity.
  - rewrite len_cons. pose proof (len_nonneg rest). split; [discriminate |].
    intros Hf. rewrite Z.gtb_ltb in Hf. apply Z.ltb_ge in Hf. lia.
Qed.

(** An invariant of the defective machine in the shape the three share:
    under the precondition, a loop over the keys asserting [test] of each
    buffer.  It passes exactly when every registered buffer passes. *)
Lemma guarded_loop_ok rules self (test : BrokenFIFOBuffer.t → bool)
    (msg : BrokenFIFOBuffer.t → message) :
  registry_ok rules self →
  (if BrokenFIFOBufferStateMachine.has_keys self then
     for_each (fun buffer_key =>
       b ← Dict.getitem (BrokenFIFOBufferStateMachine.buffer_map self) buffer_key;
       if test b then mret tt else Raise (AssertionError (msg b)))
       (Dict.keys (BrokenFIFOBufferStateMachine.buffer_map self))
   else mret tt) = Ok tt ↔
  ∀ key b,
    Dict.store (BrokenFIFOBufferStateMachine.buffer_map self) !! key = Some b →
    test b = true.
Proof.
  intros (_ & Hdom & _).
  destruct (BrokenFIFOBufferStateMachine.has_keys self) eqn:Hk.
  - rewrite for_each_ok. split.
    + intros Hall key b Hlook.
      assert (Hin : key ∈ Dict.keys (BrokenFIFOBufferStateMachine.buffer_map self))
        by (apply Hdom; eauto).
      specialize (Hall key Hin). unfold Dict.getitem in Hall. rewrite Hlook in Hall.
      simpl in Hall. destruct (test b); [reflexivity | discriminate].
    + intros Hall key Hin. apply Hdom in Hin as [b Hlook].
      unfold Dict.getitem. rewrite Hlook. simpl. rewrite (Hall key b Hlook).
      reflexivity.
  - apply has_keys_false in Hk. split; [| reflexivity].
    intros _ key b Hlook.
    assert (Hin : key ∈ Dict.keys (BrokenFIFOBufferStateMachine.buffer_map self))
      by (apply Hdom; eauto).
    rewrite Hk in Hin. inversion Hin.
Qed.

(** X7. What the invariants of the defective machine decide, in every state
    a run reaches: [buffer_not_negative] always passes;
    [buffer_length_invariant] passes exactly when every registered buffer
    has [size() <= max_length]; [max_length_positive] passes exactly when
    every registered buffer has a positive [max_length]. *)
Theorem X7_broken_invariants_decide
    (rules : list BrokenFIFOBufferStateMachine.rule)
    (self : BrokenFIFOBufferStateMachine.t) :
  trace_broken rules self →
  BrokenFIFOBufferStateMachine.buffer_not_negative self = Ok tt ∧
  (BrokenFIFOBufferStateMachine.buffer_length_invariant self = Ok tt ↔
     ∀ key b,
       Dict.getitem (BrokenFIFOBufferStateMachine.buffer_map self) key = Ok b →
       BrokenFIFOBuffer.size b <= BrokenFIFOBuffer.max_length b) ∧
  (BrokenFIFOBufferStateMachine.max_length_positive self = Ok tt ↔
     ∀ key b,
       Dict.getitem (BrokenFIFOBufferStateMachine.buffer_map self) key = Ok b →
       0 < BrokenFIFOBuffer.max_length b).
Proof.
  intros Htrace. pose proof (trace_registry_ok rules self Htrace) as Hok.
  assert (Hget : ∀ key b,
            Dict.getitem (BrokenFIFOBufferStateMachine.buffer_map self) key = Ok b ↔
            Dict.store (BrokenFIFOBufferStateMachine.buffer_map self) !! key = Some b).
  { intros key b. unfold Dict.getitem.
    destruct (Dict.store (BrokenFIFOBufferStateMachine.buffer_map self) !! key);
      split; congruence. }
  split; [| split].
  - unfold BrokenFIFOBufferStateMachine.buffer_not_negative.
    apply (guarded_loop_ok rules self
             (fun b => BrokenFIFOBuffer.size b >=? 0)
             (fun b => SizeNegative (BrokenFIFOBuffer.size b)) Hok).
    intros key b _. rewrite Z.geb_leb. apply Z.leb_le.
    apply len_nonneg.
  - unfold BrokenFIFOBufferStateMachine.buffer_length_invariant.
    rewrite (guarded_loop_ok rules self
               (fun b => BrokenFIFOBuffer.size b <=? BrokenFIFOBuffer.max_length b)
               (fun b => SizeExceeds (BrokenFIFOBuffer.size b)
                           (BrokenFIFOBuffer.max_length b)) Hok).
    split; intros Hall key b Hb.
    + apply Z.leb_le. apply (Hall key). apply Hget. exact Hb.
    + apply Z.leb_le. apply (Hall key). apply Hget. exact Hb.
  - unfold BrokenFIFOBufferStateMachine.max_length_positive.
    rewrite (guarded_loop_ok rules self
               (fun b => BrokenFIFOBuffer.max_length b >? 0)
               (fun b => MaxLengthNotPositive (BrokenFIFOBuffer.max_length b)) Hok).
    split; intros Hall key b Hb.
    + apply Hget in Hb. specialize (Hall key b Hb).
      rewrite Z.gtb_ltb in Hall. apply Z.ltb_lt in Hall. exact Hall.
    + rewrite Z.gtb_ltb. apply Z.ltb_lt. apply (Hall key). apply Hget. exact Hb.
Qed.

Lemma X7_broken_invariants_decide_witness :
  BrokenFIFOBufferStateMachine.buffer_not_negative (one_buffer [1; 2]) = Ok tt ∧
  (BrokenFIFOBufferStateMachine.buffer_length_invariant (one_buffer [1; 2]) = Ok tt ↔
     ∀ key b,
       Dict.getitem (BrokenFIFOBufferStateMachine.buffer_map (one_buffer [1; 2])) key
         = Ok b →
       BrokenFIFOBuffer.size b <= BrokenFIFOBuffer.max_length b) ∧
  (BrokenFIFOBufferStateMachine.max_length_positive (one_buffer [1; 2]) = Ok tt ↔
     ∀ key b,
       Dict.getitem (BrokenFIFOBufferStateMachine.buffer_map (one_buffer [1; 2])) key
         = Ok b →
       0 < BrokenFIFOBuffer.max_length b).
Proof.
  apply (X7_broken_invariants_decide
           [BrokenFIFOBufferStateMachine.InitializeBuffer 3;
            BrokenFIFOBufferStateMachine.AddItem 1 3;
            BrokenFIFOBufferStateMachine.AddItem 2 3]).
  apply (trace_snoc [_; _] _ (one_buffer [1]));
    [| vm_compute; reflexivity | vm_compute; reflexivity].
  apply (trace_snoc [_] _ (one_buffer []));
    [| vm_compute; reflexivity | vm_compute; reflexivity].
  apply (trace_snoc [] _ BrokenFIFOBufferStateMachine.__init__);
    [| vm_compute; reflexivity | vm_compute; reflexivity].
  apply trace_nil.
Defined.

(** X8. No rule of the defective machine removes or replaces what it was
    not aimed at.  Whenever a rule returns: every buffer stored under a key
    other than the rule's handle is still there, unchanged; no key is lost;
    the key order and the bundle only grow at the end; and a query rule
    leaves the machine exactly as it was. *)
Theorem X8_broken_step_frame
    (self self' : BrokenFIFOBufferStateMachine.t)
    (r : BrokenFIFOBufferStateMachine.rule) :
  BrokenFIFOBufferStateMachine.step self r = Ok self' →
  (∀ key b,
     Dict.store (BrokenFIFOBufferStateMachine.buffer_map self) !! key = Some b →
     BrokenFIFOBufferStateMachine.handle r ≠ Some key →
     Dict.store (BrokenFIFOBufferStateMachine.buffer_map self') !! key = Some b) ∧
  (∀ key,
     is_Some (Dict.store (BrokenFIFOBufferStateMachine.buffer_map self) !! key) →
     is_Some (Dict.store (BrokenFIFOBufferStateMachine.buffer_map self') !! key)) ∧
  Dict.keys (BrokenFIFOBufferStateMachine.buffer_map self)
    `prefix_of` Dict.keys (BrokenFIFOBufferStateMachine.buffer_map self') ∧
  BrokenFIFOBufferStateMachine.Buffer_Keys self
    `prefix_of` BrokenFIFOBufferStateMachine.Buffer_Keys self' ∧
  (∀ item key,
     r = BrokenFIFOBufferStateMachine.AddItem item key →
     ∃ b, Dict.store (BrokenFIFOBufferStateMachine.buffer_map self) !! key = Some b ∧
          Dict.store (BrokenFIFOBufferStateMachine.buffer_map self') !! key
            = Some (BrokenFIFOBuffer.Build (BrokenFIFOBuffer.max_length b)
                      (BrokenFIFOBuffer.buffer b ++ [item]))) ∧
  ((∀ max_length, r ≠ BrokenFIFOBufferStateMachine.InitializeBuffer max_length) →
   (∀ item key, r ≠ BrokenFIFOBufferStateMachine.AddItem item key) →
   self' = self).
Proof.
  intros Hstep.
  destruct r as [max_length | item key | key | key | key]; simpl in Hstep.
  - destruct (initialize_buffer_total self max_length)
      as (after & Hinit & Hkeys & Hsame & Hnew).
    rewrite Hinit in Hstep. simpl in Hstep. injection Hstep as <-. simpl.
    destruct (Dict.contains (BrokenFIFOBufferStateMachine.buffer_map self) max_length)
      eqn:Hc.
    + rewrite (Hsame eq_refl).
      repeat split; try (intros; assumption); try reflexivity.
      * apply prefix_app_r. reflexivity.
      * intros item key Heq. discriminate.
      * intros Hne. exfalso. apply (Hne max_length). reflexivity.
    + rewrite (Hnew eq_refl), Hkeys. apply contains_false in Hc as Hnone.
      unfold Dict.keys, Dict.setitem. simpl. rewrite Hc.
      repeat split.
      * intros key b Hlook _. rewrite lookup_insert_ne; [exact Hlook | congruence].
      * intros key Hsome. apply lookup_insert_is_Some.
        destruct (decide (max_length = key)); auto.
      * apply prefix_app_r. reflexivity.
      * apply prefix_app_r. reflexivity.
      * intros item key Heq. discriminate.
      * intros Hne. exfalso. apply (Hne max_length). reflexivity.
  - unfold BrokenFIFOBufferStateMachine.add_item, Dict.getitem in Hstep.
    destruct (Dict.store (BrokenFIFOBufferStateMachine.buffer_map self) !! key)
      as [b |] eqn:Hlook; [| discriminate].
    simpl in Hstep. injection Hstep as <-. simpl.
    unfold Dict.keys. simpl. unfold Dict.contains. rewrite Hlook.
    repeat split; try reflexivity.
    + intros k b0 Hk Hne. rewrite lookup_insert_ne; [exact Hk | congruence].
    + intros k Hsome. apply lookup_insert_is_Some.
      destruct (decide (key = k)); auto.
    + intros item' key' Heq. injection Heq as <- <-. exists b.
      split; [exact Hlook |]. rewrite lookup_insert_eq. reflexivity.
    + intros _ Hne. exfalso. apply (Hne item key). reflexivity.
  - unfold BrokenFIFOBufferStateMachine.check_empty in Hstep.
    destruct (Dict.getitem (BrokenFIFOBufferStateMachine.buffer_map self) key);
      [| discriminate].
    simpl in Hstep. injection Hstep as <-.
    repeat split; try (intros; assumption); try reflexivity.
    intros item' key' Heq. discriminate.
  - unfold BrokenFIFOBufferStateMachine.check_full in Hstep.
    destruct (Dict.getitem (BrokenFIFOBufferStateMachine.buffer_map self) key);
      [| discriminate].
    simpl in Hstep. injection Hstep as <-.
    repeat split; try (intros; assumption); try reflexivity.
    intros item' key' Heq. discriminate.
  - unfold BrokenFIFOBufferStateMachine.check_size in Hstep.
    destruct (Dict.getitem (BrokenFIFOBufferStateMachine.buffer_map self) key);
      [| discriminate].
    simpl in Hstep. injection Hstep as <-.
    repeat split; try (intros; assumption); try reflexivity.
    intros item' key' Heq. discriminate.
Qed.

Lemma X8_broken_step_frame_witness :
  Dict.store (BrokenFIFOBufferStateMachine.buffer_map (one_buffer [1; 2])) !! 3
    = Some (BrokenFIFOBuffer.Build 3 [1; 2]) ∧
  Dict.keys (BrokenFIFOBufferStateMachine.buffer_map (one_buffer [1]))
    `prefix_of` Dict.keys (BrokenFIFOBufferStateMachine.buffer_map (one_buffer [1; 2])).
Proof.
  destruct (X8_broken_step_frame (one_buffer [1]) (one_buffer [1; 2])
              (BrokenFIFOBufferStateMachine.AddItem 2 3))
    as (_ & _ & Hkeys & _ & Hadd & _).
  - vm_compute. reflexivity.
  - split; [| exact Hkeys].
    destruct (Hadd 2 3 eq_refl) as (b & Hb & Hb').
    vm_compute in Hb. injection Hb as <-. exact Hb'.
Defined.

(** Every buffer is registered under its own capacity, and the capacity is
    one the strategy can draw. *)
Lemma step_keyed self self' r :
  (∀ key b,
     Dict.store (BrokenFIFOBufferStateMachine.buffer_map self) !! key = Some b →
     BrokenFIFOBuffer.max_length b = key ∧ -1 <= key <= 10) →
  BrokenFIFOBufferStateMachine.eligible self r = true →
  BrokenFIFOBufferStateMachine.step self r = Ok self' →
  ∀ key b,
    Dict.store (BrokenFIFOBufferStateMachine.buffer_map self') !! key = Some b →
    BrokenFIFOBuffer.max_length b = key ∧ -1 <= key <= 10.
Proof.
  intros Hkeyed Helig Hstep.
  destruct r as [max_length | item key0 | key0 | key0 | key0]; simpl in Hstep.
  - simpl in Helig. apply andb_true_iff in Helig as [Hlo Hhi].
    apply Z.leb_le in Hlo, Hhi.
    destruct (initialize_buffer_total self max_length)
      as (after & Hinit & _ & Hsame & Hnew).
    rewrite Hinit in Hstep. simpl in Hstep. injection Hstep as <-. simpl.
    destruct (Dict.contains (BrokenFIFOBufferStateMachine.buffer_map self) max_length).
    + rewrite (Hsame eq_refl). exact Hkeyed.
    + rewrite (Hnew eq_refl). simpl. intros key b.
      rewrite lookup_insert. case_decide as Heq.
      * subst key. intros [= <-]. simpl. lia.
      * apply Hkeyed.
  - unfold BrokenFIFOBufferStateMachine.add_item, Dict.getitem in Hstep.
    destruct (Dict.store (BrokenFIFOBufferStateMachine.buffer_map self) !! key0)
      as [b0 |] eqn:Hlook; [| discriminate].
    simpl in Hstep. injection Hstep as <-. simpl. intros key b.
    rewrite lookup_insert. case_decide as Heq.
    + subst key. intros [= <-]. simpl. apply (Hkeyed key0 b0 Hlook).
    + apply Hkeyed.
  - unfold BrokenFIFOBufferStateMachine.check_empty in Hstep.
    destruct (Dict.getitem (BrokenFIFOBufferStateMachine.buffer_map self) key0);
      [| discriminate].
    simpl in Hstep. injection Hstep as <-. exact Hkeyed.
  - unfold BrokenFIFOBufferStateMachine.check_full in Hstep.
    destruct (Dict.getitem (BrokenFIFOBufferStateMachine.buffer_map self) key0);
      [| discriminate].
    simpl in Hstep. injection Hstep as <-. exact Hkeyed.
  - unfold BrokenFIFOBufferStateMachine.check_size in Hstep.
    destruct (Dict.getitem (BrokenFIFOBufferStateMachine.buffer_map self) key0);
      [| discriminate].
    simpl in Hstep. injection Hstep as <-. exact Hkeyed.
Qed.

Lemma trace_keyed rules self :
  trace_broken rules self →
  ∀ key b,
    Dict.store (BrokenFIFOBufferStateMachine.buffer_map self) !! key = Some b →
    BrokenFIFOBuffer.max_length b = key ∧ -1 <= key <= 10.
Proof.
  induction 1 as [| rules r self self' _ IH Helig Hstep].
  - intros key b Hlook. simpl in Hlook. rewrite lookup_empty in Hlook. discriminate.
  - exact (step_keyed self self' r IH Helig Hstep).
Qed.

(** X9. In every state a run of the defective machine reaches, each buffer
    of the registry is stored under its own [max_length], that capacity lies
    between -1 and 10, and so the registry never holds more than twelve
    buffers. *)
Theorem X9_registry_keyed_by_capacity
    (rules : list BrokenFIFOBufferStateMachine.rule)
    (self : BrokenFIFOBufferStateMachine.t) :
  trace_broken rules self →
  (∀ key b,
     Dict.getitem (BrokenFIFOBufferStateMachine.buffer_map self) key = Ok b →
     BrokenFIFOBuffer.max_length b = key ∧ -1 <= key <= 10) ∧
  len (Dict.keys (BrokenFIFOBufferStateMachine.buffer_map self)) <= 12.
Proof.
  intros Htrace. pose proof (trace_keyed rules self Htrace) as Hkeyed.
  destruct (trace_registry_ok rules self Htrace) as (Hnd & Hdom & _).
  split.
  - intros key b Hget. apply Hkeyed. unfold Dict.getitem in Hget.
    destruct (Dict.store (BrokenFIFOBufferStateMachine.buffer_map self) !! key);
      congruence.
  - assert (Hsub : Dict.keys (BrokenFIFOBufferStateMachine.buffer_map self)
                     ⊆+ seqZ (-1) 12).
    { apply NoDup_submseteq; [exact Hnd |].
      intros key Hin. apply Hdom in Hin as [b Hlook].
      destruct (Hkeyed key b Hlook) as [_ Hrange].
      apply elem_of_seqZ. lia. }
    apply submseteq_length in Hsub. rewrite length_seqZ in Hsub.
    unfold len. lia.
Qed.

Lemma X9_registry_keyed_by_capacity_witness :
  (∀ key b,
     Dict.getitem (BrokenFIFOBufferStateMachine.buffer_map (one_buffer [1])) key = Ok b →
     BrokenFIFOBuffer.max_length b = key ∧ -1 <= key <= 10) ∧
  len (Dict.keys (BrokenFIFOBufferStateMachine.buffer_map (one_buffer [1]))) <= 12.
Proof.
  apply (X9_registry_keyed_by_capacity
           [BrokenFIFOBufferStateMachine.InitializeBuffer 3;
            BrokenFIFOBufferStateMachine.AddItem 1 3]).
  apply (trace_snoc [_] _ (one_buffer []));
    [| vm_compute; reflexivity | vm_compute; reflexivity].
  apply (trace_snoc [] _ BrokenFIFOBufferStateMachine.__init__);
    [| vm_compute; reflexivity | vm_compute; reflexivity].
  apply trace_nil.
Defined.

(** ** One buffer under the driver *)

Lemma single_keys capacity contents :
  Dict.keys (BrokenFIFOBufferStateMachine.buffer_map (single capacity contents))
    = [capacity].
Proof.
  unfold single, Dict.keys, Dict.setitem, Dict.contains. simpl.
  rewrite lookup_empty. reflexivity.
Qed.

Lemma single_getitem capacity contents :
  Dict.getitem (BrokenFIFOBufferStateMachine.buffer_map (single capacity contents))
    capacity = Ok (BrokenFIFOBuffer.Build capacity contents).
Proof.
  unfold single, Dict.getitem, Dict.setitem. simpl.
  rewrite lookup_insert_eq. reflexivity.
Qed.

Lemma single_has_keys capacity contents :
  BrokenFIFOBufferStateMachine.has_keys (single capacity contents) = true.
Proof.
  unfold BrokenFIFOBufferStateMachine.has_keys. rewrite single_keys. reflexivity.
Qed.

(** With a positive capacity only the length invariant can fail. *)
Lemma single_check capacity contents :
  0 < capacity →
  BrokenFIFOBufferStateMachine.check_invariants (single capacity contents) =
    if len contents <=? capacity then Ok tt
    else Raise (AssertionError (SizeExceeds (len contents) capacity)).
Proof.
  intros Hpos.
  unfold BrokenFIFOBufferStateMachine.check_invariants,
    BrokenFIFOBufferStateMachine.buffer_length_invariant,
    BrokenFIFOBufferStateMachine.buffer_not_negative,
    BrokenFIFOBufferStateMachine.max_length_positive.
  rewrite single_has_keys, single_keys. cbn [for_each].
  rewrite single_getitem. simpl. unfold BrokenFIFOBuffer.size. simpl.
  destruct (len contents <=? capacity); [| reflexivity]. simpl.
  rewrite Z.geb_leb. pose proof (len_nonneg contents) as Hnn.
  apply Z.leb_le in Hnn. rewrite Hnn. simpl.
  rewrite Z.gtb_ltb. apply Z.ltb_lt in Hpos. rewrite Hpos. reflexivity.
Qed.

Lemma single_add capacity contents item :
  BrokenFIFOBufferStateMachine.step (single capacity contents)
    (BrokenFIFOBufferStateMachine.AddItem item capacity)
  = Ok (single capacity (contents ++ [item])).
Proof.
  simpl. unfold BrokenFIFOBufferStateMachine.add_item.
  rewrite single_getitem. simpl. unfold single, Dict.setitem, Dict.contains. simpl.
  rewrite lookup_insert_eq, lookup_empty, insert_insert_eq. reflexivity.
Qed.

Lemma single_initialize capacity :
  BrokenFIFOBufferStateMachine.step BrokenFIFOBufferStateMachine.__init__
    (BrokenFIFOBufferStateMachine.InitializeBuffer capacity)
  = Ok (single capacity []).
Proof.
  simpl. unfold BrokenFIFOBufferStateMachine.initialize_buffer, Dict.contains. simpl.
  rewrite lookup_empty. reflexivity.
Qed.

Lemma steps_single_adds capacity (items : list Z) :
  0 < capacity →
  ∀ contents,
    len contents <= capacity →
    (len contents + len items <= capacity →
       steps BrokenFIFOBufferStateMachine.step
             BrokenFIFOBufferStateMachine.check_invariants
             (single capacity contents) (adds capacity items)
       = Completed (single capacity (contents ++ items))) ∧
    (capacity < len contents + len items →
       ∃ item,
         items !! Z.to_nat (capacity - len contents) = Some item ∧
         steps BrokenFIFOBufferStateMachine.step
               BrokenFIFOBufferStateMachine.check_invariants
               (single capacity contents) (adds capacity items)
         = Failed (Some (BrokenFIFOBufferStateMachine.AddItem item capacity))
                  (AssertionError (SizeExceeds (capacity + 1) capacity))
                  (single capacity
                     (contents ++ take (Z.to_nat (capacity - len contents) + 1) items))).
Proof.
  intros Hpos. induction items as [| i rest IH]; intros contents Hfit.
  - change (len []) with 0. split.
    + intros _. simpl. rewrite app_nil_r. reflexivity.
    + intros Hover. lia.
  - rewrite len_cons. pose proof (len_nonneg rest) as Hrest.
    cbn [adds map steps]. rewrite single_add, (single_check _ _ Hpos).
    rewrite len_app. change (len [i]) with 1.
    destruct (Z.leb_spec (len contents + 1) capacity) as [Hroom | Hfull].
    + assert (Hfit' : len (contents ++ [i]) <= capacity)
        by (rewrite len_app; change (len [i]) with 1; lia).
      destruct (IH (contents ++ [i]) Hfit') as [IHok IHover].
      rewrite len_app in IHok, IHover. change (len [i]) with 1 in IHok, IHover.
      fold (adds capacity rest).
      replace (Z.to_nat (capacity - len contents))
        with (S (Z.to_nat (capacity - (len contents + 1)))) by lia.
      split.
      * intros Hall. rewrite IHok by lia. rewrite <- app_assoc. reflexivity.
      * intros Hover. destruct IHover as (item & Hitem & Hrun); [lia |].
        exists item. split; [exact Hitem |]. rewrite Hrun.
        rewrite <- app_assoc. reflexivity.
    + assert (Heq : len contents = capacity) by lia.
      split; [intros Hall; lia |]. intros _.
      replace (Z.to_nat (capacity - len contents)) with 0%nat by lia.
      exists i. split; [reflexivity |]. rewrite Heq. reflexivity.
Qed.

(** X10. The driver catches the defective buffer at the first add past the
    capacity, whatever the items: for a positive capacity, initializing one
    buffer and adding at most [capacity] items completes, the buffer holding
    the items; adding more fails right after add number [capacity + 1], on
    [buffer_length_invariant] with size [capacity + 1], and the later adds
    are not applied. *)
Theorem X10_overflow_caught_at_first_excess (capacity : Z) (items : list Z) :
  0 < capacity →
  (len items <= capacity →
     run_broken (BrokenFIFOBufferStateMachine.InitializeBuffer capacity
                   :: adds capacity items)
     = Completed (single capacity items)) ∧
  (capacity < len items →
     ∃ item,
       items !! Z.to_nat capacity = Some item ∧
       run_broken (BrokenFIFOBufferStateMachine.InitializeBuffer capacity
                     :: adds capacity items)
       = Failed (Some (BrokenFIFOBufferStateMachine.AddItem item capacity))
                (AssertionError (SizeExceeds (capacity + 1) capacity))
                (single capacity (take (Z.to_nat capacity + 1) items))).
Proof.
  intros Hpos.
  assert (Hrun : run_broken (BrokenFIFOBufferStateMachine.InitializeBuffer capacity
                               :: adds capacity items)
                 = steps BrokenFIFOBufferStateMachine.step
                         BrokenFIFOBufferStateMachine.check_invariants
                         (single capacity []) (adds capacity items)).
  { unfold run_broken, run. cbn [steps].
    rewrite single_initialize, (single_check _ _ Hpos).
    change (len []) with 0.
    destruct (Z.leb_spec 0 capacity); [reflexivity | lia]. }
  rewrite Hrun.
  destruct (steps_single_adds capacity items Hpos []) as [Hok Hover].
  { change (len []) with 0. lia. }
  change (len []) with 0 in Hok, Hover.
  rewrite Z.sub_0_r in Hover. simpl in Hok, Hover.
  split; [exact Hok | exact Hover].
Qed.

Lemma X10_overflow_caught_at_first_excess_witness :
  run_broken (BrokenFIFOBufferStateMachine.InitializeBuffer 2 :: adds 2 [7; 8])
    = Completed (single 2 [7; 8]) ∧
  ∃ item,
    [7; 8; 9; 10] !! Z.to_nat 2 = Some item ∧
    run_broken (BrokenFIFOBufferStateMachine.InitializeBuffer 2 :: adds 2 [7; 8; 9; 10])
    = Failed (Some (BrokenFIFOBufferStateMachine.AddItem item 2))
             (AssertionError (SizeExceeds (2 + 1) 2))
             (single 2 (take (Z.to_nat 2 + 1) [7; 8; 9; 10])).
Proof.
  split.
  - apply (proj1 (X10_overflow_caught_at_first_excess 2 [7; 8] eq_refl)).
    vm_compute. discriminate.
  - apply (proj2 (X10_overflow_caught_at_first_excess 2 [7; 8; 9; 10] eq_refl)).
    vm_compute. reflexivity.
Defined.

(** ** Capacities that are not positive *)

(** A passing guarded loop passed on every key, also when the guard was
    false, there being no key then. *)
Lemma guarded_loop_passed self (body : Z → result unit) :
  (if BrokenFIFOBufferStateMachine.has_keys self then
     for_each body (Dict.keys (BrokenFIFOBufferStateMachine.buffer_map self))
   else mret tt) = Ok tt →
  for_each body (Dict.keys (BrokenFIFOBufferStateMachine.buffer_map self)) = Ok tt.
Proof.
  destruct (BrokenFIFOBufferStateMachine.has_keys self) eqn:Hk; [auto |].
  intros _. apply has_keys_false in Hk. rewrite Hk. reflexivity.
Qed.

(** The same loop after a buffer was registered under a fresh key: the old
    buffers are judged as before, then the new one. *)
Lemma guarded_loop_extended self fresh (test : BrokenFIFOBuffer.t → bool)
    (msg : BrokenFIFOBuffer.t → message) :
  let d := BrokenFIFOBufferStateMachine.buffer_map self in
  let b := BrokenFIFOBuffer.Build fresh [] in
  let body (m : Dict.t BrokenFIFOBuffer.t) := fun buffer_key =>
        b ← Dict.getitem m buffer_key;
        if test b then mret tt else Raise (AssertionError (msg b)) in
  Dict.store d !! fresh = None →
  (∀ key, key ∈ Dict.keys d → is_Some (Dict.store d !! key)) →
  for_each (body d) (Dict.keys d) = Ok tt →
  for_each (body (Dict.setitem d fresh b)) (Dict.keys (Dict.setitem d fresh b)) =
    if test b then Ok tt else Raise (AssertionError (msg b)).
Proof.
  intros d b body Hfresh Hdom Hpass.
  assert (Hkeys : Dict.keys (Dict.setitem d fresh b) = Dict.keys d ++ [fresh]).
  { unfold Dict.keys, Dict.setitem. simpl.
    rewrite (proj2 (contains_false d fresh) Hfresh). reflexivity. }
  rewrite Hkeys, for_each_app.
  rewrite (for_each_ext (body (Dict.setitem d fresh b)) (body d) (Dict.keys d)).
  - rewrite Hpass. simpl. unfold body at 1, Dict.getitem, Dict.setitem. simpl.
    rewrite lookup_insert_eq. simpl. destruct (test b); reflexivity.
  - intros key Hin. unfold body, Dict.getitem, Dict.setitem. simpl.
    rewrite lookup_insert_ne; [reflexivity |].
    intros <-. apply Hdom in Hin as [v Hv]. congruence.
Qed.

(** X11. A capacity that is not positive is caught at once.  From any state
    a run of the defective machine reaches with its invariants holding,
    [initialize_buffer] with [max_length <= 0] registers the buffer and the
    invariant check that follows raises: [buffer_length_invariant] when the
    capacity is negative (the empty buffer already exceeds it),
    [max_length_positive] when it is zero. *)
Theorem X11_nonpositive_capacity_caught
    (rules : list BrokenFIFOBufferStateMachine.rule)
    (self : BrokenFIFOBufferStateMachine.t) (max_length : Z) :
  trace_broken rules self →
  BrokenFIFOBufferStateMachine.check_invariants self = Ok tt →
  max_length <= 0 →
  ∃ self',
    BrokenFIFOBufferStateMachine.step self
      (BrokenFIFOBufferStateMachine.InitializeBuffer max_length) = Ok self' ∧
    Dict.getitem (BrokenFIFOBufferStateMachine.buffer_map self') max_length
      = Ok (BrokenFIFOBuffer.Build max_length []) ∧
    BrokenFIFOBufferStateMachine.check_invariants self' =
      Raise (AssertionError
               (if max_length <? 0 then SizeExceeds 0 max_length
                else MaxLengthNotPositive max_length)).
Proof.
  intros Htrace Hinv Hnonpos.
  pose proof (trace_registry_ok rules self Htrace) as Hok.
  pose proof (trace_keyed rules self Htrace) as Hkeyed.
  unfold BrokenFIFOBufferStateMachine.check_invariants in Hinv.
  destruct (BrokenFIFOBufferStateMachine.buffer_length_invariant self)
    as [[] | e] eqn:Hlen; [| discriminate].
  destruct (BrokenFIFOBufferStateMachine.buffer_not_negative self)
    as [[] | e] eqn:Hneg; [| discriminate].
  simpl in Hinv.
  assert (Hfresh : Dict.store (BrokenFIFOBufferStateMachine.buffer_map self)
                     !! max_length = None).
  { destruct (Dict.store (BrokenFIFOBufferStateMachine.buffer_map self) !! max_length)
      as [b |] eqn:Hlook; [| reflexivity].
    unfold BrokenFIFOBufferStateMachine.max_length_positive in Hinv.
    pose proof (proj1 (guarded_loop_ok rules self _ _ Hok) Hinv _ _ Hlook) as Hposb.
    simpl in Hposb. rewrite Z.gtb_ltb in Hposb. apply Z.ltb_lt in Hposb.
    destruct (Hkeyed _ _ Hlook) as [Hkey _]. lia. }
  assert (Hdom : ∀ key,
            key ∈ Dict.keys (BrokenFIFOBufferStateMachine.buffer_map self) →
            is_Some (Dict.store (BrokenFIFOBufferStateMachine.buffer_map self) !! key)).
  { intros key Hin. destruct Hok as (_ & Hdom & _). apply Hdom. exact Hin. }
  destruct (initialize_buffer_total self max_length)
    as (after & Hinit & Hbundle & _ & Hnew).
  specialize (Hnew (proj2 (contains_false _ _) Hfresh)).
  eexists. split.
  { simpl. rewrite Hinit. simpl. reflexivity. }
  simpl. rewrite Hnew. split.
  { unfold Dict.getitem, Dict.setitem. simpl. rewrite lookup_insert_eq. reflexivity. }
  assert (Hhas : ∀ bundle,
            BrokenFIFOBufferStateMachine.has_keys
              {| BrokenFIFOBufferStateMachine.buffer_map :=
                   Dict.setitem (BrokenFIFOBufferStateMachine.buffer_map self)
                     max_length (BrokenFIFOBuffer.Build max_length []);
                 BrokenFIFOBufferStateMachine.Buffer_Keys := bundle |} = true).
  { intros bundle. unfold BrokenFIFOBufferStateMachine.has_keys, Dict.keys, Dict.setitem.
    simpl. rewrite (proj2 (contains_false _ _) Hfresh).
    unfold len. rewrite length_app. simpl. rewrite Z.gtb_ltb. apply Z.ltb_lt. lia. }
  unfold BrokenFIFOBufferStateMachine.check_invariants,
    BrokenFIFOBufferStateMachine.buffer_length_invariant,
    BrokenFIFOBufferStateMachine.buffer_not_negative,
    BrokenFIFOBufferStateMachine.max_length_positive.
  rewrite !Hhas.
  cbn [BrokenFIFOBufferStateMachine.buffer_map].
  unfold BrokenFIFOBufferStateMachine.buffer_length_invariant in Hlen.
  unfold BrokenFIFOBufferStateMachine.buffer_not_negative in Hneg.
  unfold BrokenFIFOBufferStateMachine.max_length_positive in Hinv.
  apply guarded_loop_passed in Hlen, Hneg, Hinv.
  rewrite (guarded_loop_extended self max_length
             (fun b => BrokenFIFOBuffer.size b <=? BrokenFIFOBuffer.max_length b)
             (fun b => SizeExceeds (BrokenFIFOBuffer.size b)
                         (BrokenFIFOBuffer.max_length b)) Hfresh Hdom Hlen).
  rewrite (guarded_loop_extended self max_length
             (fun b => BrokenFIFOBuffer.size b >=? 0)
             (fun b => SizeNegative (BrokenFIFOBuffer.size b)) Hfresh Hdom Hneg).
  rewrite (guarded_loop_extended self max_length
             (fun b => BrokenFIFOBuffer.max_length b >? 0)
             (fun b => MaxLengthNotPositive (BrokenFIFOBuffer.max_length b))
             Hfresh Hdom Hinv).
  unfold BrokenFIFOBuffer.size. simpl. change (len []) with 0.
  destruct (Z.ltb_spec max_length 0) as [Hlt | Hge].
  - destruct (Z.leb_spec 0 max_length); [lia | reflexivity].
  - assert (max_length = 0) as -> by lia. reflexivity.
Qed.

Lemma X11_nonpositive_capacity_caught_witness :
  ∃ self',
    BrokenFIFOBufferStateMachine.step (one_buffer [1])
      (BrokenFIFOBufferStateMachine.InitializeBuffer (-1)) = Ok self' ∧
    Dict.getitem (BrokenFIFOBufferStateMachine.buffer_map self') (-1)
      = Ok (BrokenFIFOBuffer.Build (-1) []) ∧
    BrokenFIFOBufferStateMachine.check_invariants self' =
      Raise (AssertionError
               (if -1 <? 0 then SizeExceeds 0 (-1) else MaxLengthNotPositive (-1))).
Proof.
  apply (X11_nonpositive_capacity_caught
           [BrokenFIFOBufferStateMachine.InitializeBuffer 3;
            BrokenFIFOBufferStateMachine.AddItem 1 3]
           (one_buffer [1]) (-1)).
  - apply (trace_snoc [_] _ (one_buffer []));
      [| vm_compute; reflexivity | vm_compute; reflexivity].
    apply (trace_snoc [] _ BrokenFIFOBufferStateMachine.__init__);
      [| vm_compute; reflexivity | vm_compute; reflexivity].
    apply trace_nil.
  - vm_compute. reflexivity.
  - vm_compute. discriminate.
Defined.

(** ** Rules that raise *)

(** A rule of the defective machine raises only by looking up a handle the
    registry does not hold. *)
Lemma broken_step_raise self r e :
  BrokenFIFOBufferStateMachine.step self r = Raise e →
  ∃ key,
    BrokenFIFOBufferStateMachine.handle r = Some key ∧
    e = KeyError key ∧
    Dict.store (BrokenFIFOBufferStateMachine.buffer_map self) !! key = None.
Proof.
  destruct r as [max_length | item key | key | key | key]; simpl.
  - destruct (initialize_buffer_total self max_length) as (after & -> & _).
    discriminate.
  - unfold BrokenFIFOBufferStateMachine.add_item, Dict.getitem.
    destruct (Dict.store (BrokenFIFOBufferStateMachine.buffer_map self) !! key)
      eqn:Hlook; simpl; [discriminate |]. intros [= <-]. eauto.
  - unfold BrokenFIFOBufferStateMachine.check_empty, Dict.getitem.
    destruct (Dict.store (BrokenFIFOBufferStateMachine.buffer_map self) !! key)
      eqn:Hlook; simpl; [discriminate |]. intros [= <-]. eauto.
  - unfold BrokenFIFOBufferStateMachine.check_full, Dict.getitem.
    destruct (Dict.store (BrokenFIFOBufferStateMachine.buffer_map self) !! key)
      eqn:Hlook; simpl; [discriminate |]. intros [= <-]. eauto.
  - unfold BrokenFIFOBufferStateMachine.check_size, Dict.getitem.
    destruct (Dict.store (BrokenFIFOBufferStateMachine.buffer_map self) !! key)
      eqn:Hlook; simpl; [discriminate |]. intros [= <-]. eauto.
Qed.

(** Whatever rule returns, eligible or not, the bundle keeps naming
    registered buffers only. *)
Lemma broken_step_bundle_ok self self' r :
  bundle_ok self →
  BrokenFIFOBufferStateMachine.step self r = Ok self' →
  bundle_ok self'.
Proof.
  unfold bundle_ok. intros Hok Hstep.
  destruct r as [max_length | item key0 | key0 | key0 | key0]; simpl in Hstep.
  - destruct (initialize_buffer_total self max_length)
      as (after & Hinit & Hbundle & Hsame & Hnew).
    rewrite Hinit in Hstep. simpl in Hstep. injection Hstep as <-. simpl.
    rewrite Hbundle. intros key Hin.
    destruct (Dict.contains (BrokenFIFOBufferStateMachine.buffer_map self) max_length)
      eqn:Hc.
    + rewrite (Hsame eq_refl). apply elem_of_app in Hin as [Hin | Hin]; [auto |].
      apply list_elem_of_singleton in Hin as ->. apply contains_true. exact Hc.
    + rewrite (Hnew eq_refl). simpl. apply lookup_insert_is_Some.
      apply elem_of_app in Hin as [Hin | Hin].
      * destruct (decide (max_length = key)); auto.
      * apply list_elem_of_singleton in Hin as ->. auto.
  - unfold BrokenFIFOBufferStateMachine.add_item, Dict.getitem in Hstep.
    destruct (Dict.store (BrokenFIFOBufferStateMachine.buffer_map self) !! key0)
      eqn:Hlook; [| discriminate].
    simpl in Hstep. injection Hstep as <-. simpl. intros key Hin.
    apply lookup_insert_is_Some. destruct (decide (key0 = key)); auto.
  - unfold BrokenFIFOBufferStateMachine.check_empty in Hstep.
    destruct (Dict.getitem (BrokenFIFOBufferStateMachine.buffer_map self) key0);
      [| discriminate].
    simpl in Hstep. injection Hstep as <-. exact Hok.
  - unfold BrokenFIFOBufferStateMachine.check_full in Hstep.
    destruct (Dict.getitem (BrokenFIFOBufferStateMachine.buffer_map self) key0);
      [| discriminate].
    simpl in Hstep. injection Hstep as <-. exact Hok.
  - unfold BrokenFIFOBufferStateMachine.check_size in Hstep.
    destruct (Dict.getitem (BrokenFIFOBufferStateMachine.buffer_map self) key0);
      [| discriminate].
    simpl in Hstep. injection Hstep as <-. exact Hok.
Qed.

Lemma steps_crash_cause (rules : list BrokenFIFOBufferStateMachine.rule) :
  ∀ self r e before,
    bundle_ok self →
    steps BrokenFIFOBufferStateMachine.step
          BrokenFIFOBufferStateMachine.check_invariants self rules
      = Crashed r e before →
    ∃ key,
      BrokenFIFOBufferStateMachine.handle r = Some key ∧
      e = KeyError key ∧
      (key ∉ BrokenFIFOBufferStateMachine.Buffer_Keys before) ∧
      BrokenFIFOBufferStateMachine.eligible before r = false.
Proof.
  induction rules as [| r0 rest IH]; intros self r e before Hok Hrun; simpl in Hrun.
  - discriminate.
  - destruct (BrokenFIFOBufferStateMachine.step self r0) as [self' | e0] eqn:Hstep.
    + destruct (BrokenFIFOBufferStateMachine.check_invariants self');
        [| discriminate].
      apply (IH self' r e before); [| exact Hrun].
      exact (broken_step_bundle_ok self self' r0 Hok Hstep).
    + injection Hrun as <- <- <-.
      destruct (broken_step_raise self r0 e0 Hstep) as (key & Hkey & -> & Hnone).
      assert (Hnotin : key ∉ BrokenFIFOBufferStateMachine.Buffer_Keys self).
      { intros Hin. destruct (Hok key Hin) as [v Hv]. congruence. }
      exists key. split; [exact Hkey |]. split; [reflexivity |].
      split; [exact Hnotin |].
      destruct r0; simpl in *; try discriminate;
        injection Hkey as ->; apply bool_decide_eq_false; exact Hnotin.
Qed.

(** X12. The driver never crashes the defective machine on a rule the
    strategies can produce.  If a run ends in [Crashed], whatever rules were
    given, the rule that raised took a handle that is not in the bundle (so
    it was not eligible), and the exception is the [KeyError] of that
    handle; no rule raises anything else. *)
Theorem X12_crash_only_on_foreign_handle
    (rules : list BrokenFIFOBufferStateMachine.rule)
    (r : BrokenFIFOBufferStateMachine.rule) (e : exn)
    (before : BrokenFIFOBufferStateMachine.t) :
  run_broken rules = Crashed r e before →
  ∃ key,
    BrokenFIFOBufferStateMachine.handle r = Some key ∧
    e = KeyError key ∧
    (key ∉ BrokenFIFOBufferStateMachine.Buffer_Keys before) ∧
    BrokenFIFOBufferStateMachine.eligible before r = false.
Proof.
  unfold run_broken, run.
  destruct (BrokenFIFOBufferStateMachine.check_invariants
              BrokenFIFOBufferStateMachine.__init__); [| discriminate].
  apply steps_crash_cause. intros key Hin. inversion Hin.
Qed.

Lemma X12_crash_only_on_foreign_handle_witness :
  ∃ key,
    BrokenFIFOBufferStateMachine.handle (BrokenFIFOBufferStateMachine.AddItem 1 4)
      = Some key ∧
    KeyError 4 = KeyError key ∧
    (key ∉ BrokenFIFOBufferStateMachine.Buffer_Keys (one_buffer [])) ∧
    BrokenFIFOBufferStateMachine.eligible (one_buffer [])
      (BrokenFIFOBufferStateMachine.AddItem 1 4) = false.
Proof.
  apply (X12_crash_only_on_foreign_handle
           [BrokenFIFOBufferStateMachine.InitializeBuffer 3;
            BrokenFIFOBufferStateMachine.AddItem 1 4]).
  vm_compute. reflexivity.
Defined.

(** ** What a failure report can say *)

Lemma for_each_raise (body : Z → result unit) (keys : list Z) (e : exn) :
  for_each body keys = Raise e → ∃ key, key ∈ keys ∧ body key = Raise e.
Proof.
  induction keys as [| k rest IH]; simpl.
  - discriminate.
  - destruct (body k) as [[] | e0] eqn:Hk; simpl.
    + intros Hrest. destruct (IH Hrest) as (key & Hin & Hkey).
      exists key. split; [apply elem_of_cons; right; exact Hin | exact Hkey].
    + intros [= <-]. exists k. split; [apply elem_of_cons; left; reflexivity |].
      exact Hk.
Qed.

(** A guarded loop of the defective machine raises only the assertion of a
    registered buffer that fails the test. *)
Lemma guarded_loop_raise rules self (test : BrokenFIFOBuffer.t → bool)
    (msg : BrokenFIFOBuffer.t → message) (e : exn) :
  registry_ok rules self →
  (if BrokenFIFOBufferStateMachine.has_keys self then
     for_each (fun buffer_key =>
       b ← Dict.getitem (BrokenFIFOBufferStateMachine.buffer_map self) buffer_key;
       if test b then mret tt else Raise (AssertionError (msg b)))
       (Dict.keys (BrokenFIFOBufferStateMachine.buffer_map self))
   else mret tt) = Raise e →
  ∃ key b,
    Dict.getitem (BrokenFIFOBufferStateMachine.buffer_map self) key = Ok b ∧
    test b = false ∧
    e = AssertionError (msg b).
Proof.
  intros (_ & Hdom & _).
  destruct (BrokenFIFOBufferStateMachine.has_keys self); [| discriminate].
  intros Hraise. apply for_each_raise in Hraise as (key & Hin & Hbody).
  apply Hdom in Hin as [b Hlook]. exists key, b.
  unfold Dict.getitem in *. rewrite Hlook in *. simpl in Hbody.
  destruct (test b); [discriminate |]. injection Hbody as <-. auto.
Qed.

(** X17. A failure report of the defective machine is never spurious.  In
    every state a run reaches, if the invariant check raises, the exception
    is the assertion about some registered buffer that really breaks the
    bound it names: either its size exceeds its [max_length], or its
    [max_length] is not positive.  The size-is-negative assertion is never
    the one raised. *)
Theorem X17_failure_reports_are_sound
    (rules : list BrokenFIFOBufferStateMachine.rule)
    (self : BrokenFIFOBufferStateMachine.t) (e : exn) :
  trace_broken rules self →
  BrokenFIFOBufferStateMachine.check_invariants self = Raise e →
  ∃ key b,
    Dict.getitem (BrokenFIFOBufferStateMachine.buffer_map self) key = Ok b ∧
    ((BrokenFIFOBuffer.max_length b < BrokenFIFOBuffer.size b ∧
      e = AssertionError
            (SizeExceeds (BrokenFIFOBuffer.size b) (BrokenFIFOBuffer.max_length b))) ∨
     (BrokenFIFOBuffer.max_length b <= 0 ∧
      e = AssertionError (MaxLengthNotPositive (BrokenFIFOBuffer.max_length b)))).
Proof.
  intros Htrace Hraise.
  pose proof (trace_registry_ok rules self Htrace) as Hok.
  unfold BrokenFIFOBufferStateMachine.check_invariants in Hraise.
  destruct (BrokenFIFOBufferStateMachine.buffer_length_invariant self)
    as [[] | e1] eqn:Hlen.
  - destruct (BrokenFIFOBufferStateMachine.buffer_not_negative self)
      as [[] | e2] eqn:Hneg; simpl in Hraise.
    + unfold BrokenFIFOBufferStateMachine.max_length_positive in Hraise.
      apply (guarded_loop_raise rules self _ _ e Hok) in Hraise
        as (key & b & Hget & Htest & ->).
      exists key, b. split; [exact Hget |]. right. split; [| reflexivity].
      rewrite Z.gtb_ltb in Htest. apply Z.ltb_ge in Htest. exact Htest.
    + exfalso. unfold BrokenFIFOBufferStateMachine.buffer_not_negative in Hneg.
      apply (guarded_loop_raise rules self _ _ e2 Hok) in Hneg
        as (key & b & _ & Htest & _).
      rewrite Z.geb_leb in Htest. apply Z.leb_gt in Htest.
      pose proof (len_nonneg (BrokenFIFOBuffer.buffer b)).
      unfold BrokenFIFOBuffer.size in Htest. lia.
  - simpl in Hraise. injection Hraise as <-.
    unfold BrokenFIFOBufferStateMachine.buffer_length_invariant in Hlen.
    apply (guarded_loop_raise rules self _ _ e1 Hok) in Hlen
      as (key & b & Hget & Htest & ->).
    exists key, b. split; [exact Hget |]. left. split; [| reflexivity].
    apply Z.leb_gt in Htest. exact Htest.
Qed.

Lemma X17_failure_reports_are_sound_witness :
  ∃ key b,
    Dict.getitem (BrokenFIFOBufferStateMachine.buffer_map (one_buffer [1; 2; 3; 4])) key
      = Ok b ∧
    ((BrokenFIFOBuffer.max_length b < BrokenFIFOBuffer.size b ∧
      AssertionError (SizeExceeds 4 3) = AssertionError
            (SizeExceeds (BrokenFIFOBuffer.size b) (BrokenFIFOBuffer.max_length b))) ∨
     (BrokenFIFOBuffer.max_length b <= 0 ∧
      AssertionError (SizeExceeds 4 3)
        = AssertionError (MaxLengthNotPositive (BrokenFIFOBuffer.max_length b)))).
Proof.
  apply (X17_failure_reports_are_sound
           [BrokenFIFOBufferStateMachine.InitializeBuffer 3;
            BrokenFIFOBufferStateMachine.AddItem 1 3;
            BrokenFIFOBufferStateMachine.AddItem 2 3;
            BrokenFIFOBufferStateMachine.AddItem 3 3;
            BrokenFIFOBufferStateMachine.AddItem 4 3]).
  - apply (trace_snoc [_; _; _; _] _ (one_buffer [1; 2; 3]));
      [| vm_compute; reflexivity | vm_compute; reflexivity].
    apply (trace_snoc [_; _; _] _ (one_buffer [1; 2]));
      [| vm_compute; reflexivity | vm_compute; reflexivity].
    apply (trace_snoc [_; _] _ (one_buffer [1]));
      [| vm_compute; reflexivity | vm_compute; reflexivity].
    apply (trace_snoc [_] _ (one_buffer []));
      [| vm_compute; reflexivity | vm_compute; reflexivity].
    apply (trace_snoc [] _ BrokenFIFOBufferStateMachine.__init__);
      [| vm_compute; reflexivity | vm_compute; reflexivity].
    apply trace_nil.
  - vm_compute. reflexivity.
Defined.

(** * Further properties of the correct machine *)

Lemma correct_machine_completes_witness :
  ∃ final,
    run_correct
      [FIFOBufferStateMachine.InitializeBuffer 2; FIFOBufferStateMachine.AddItem 5;
       FIFOBufferStateMachine.AddItem 6; FIFOBufferStateMachine.AddItem 7;
       FIFOBufferStateMachine.RemoveItem; FIFOBufferStateMachine.PeekItem;
       FIFOBufferStateMachine.InitializeBuffer 1; FIFOBufferStateMachine.CheckFull]
    = Completed final.
Proof.
  apply correct_machine_completes.
  repeat (apply Forall_cons; split; [reflexivity |]). apply Forall_nil_2.
Defined.

Lemma add_max_length b item b' :
  FIFOBuffer.add b item = Ok b' →
  FIFOBuffer.max_length b' = FIFOBuffer.max_length b.
Proof.
  unfold FIFOBuffer.add.
  destruct (len (FIFOBuffer.buffer b) >=? FIFOBuffer.max_length b);
    [destruct (pop0 (FIFOBuffer.buffer b)) |]; simpl; intros [= <-]; reflexivity.
Qed.

Lemma remove_max_length b x b' :
  FIFOBuffer.remove b = Ok (x, b') →
  FIFOBuffer.max_length b' = FIFOBuffer.max_length b.
Proof.
  unfold FIFOBuffer.remove.
  destruct (FIFOBuffer.buffer b); simpl; intros [= _ <-]; reflexivity.
Qed.

Lemma step_capacity_drawn self self' r :
  (∀ b, FIFOBufferStateMachine.buffer self = Some b →
        1 <= FIFOBuffer.max_length b <= 10) →
  FIFOBufferStateMachine.eligible self r = true →
  FIFOBufferStateMachine.step self r = Ok self' →
  ∀ b, FIFOBufferStateMachine.buffer self' = Some b →
       1 <= FIFOBuffer.max_length b <= 10.
Proof.
  intros Hcap Helig Hstep.
  destruct r as [max_length | item | | | | |]; simpl in Hstep.
  - simpl in Helig. apply andb_true_iff in Helig as [Hlo Hhi].
    apply Z.leb_le in Hlo, Hhi.
    unfold FIFOBufferStateMachine.initialize_buffer in Hstep.
    rewrite init_positive in Hstep by lia. simpl in Hstep.
    injection Hstep as <-. simpl. intros b [= <-]. simpl. lia.
  - unfold FIFOBufferStateMachine.add_item in Hstep.
    destruct (FIFOBufferStateMachine.buffer self) as [b0 |] eqn:Hbuf.
    + destruct (FIFOBuffer.add b0 item) as [b1 |] eqn:Hadd; [| discriminate].
      simpl in Hstep. injection Hstep as <-. simpl. intros b [= <-].
      rewrite (add_max_length _ _ _ Hadd). apply Hcap. reflexivity.
    + injection Hstep as <-. rewrite Hbuf. discriminate.
  - unfold FIFOBufferStateMachine.remove_item in Hstep.
    destruct (FIFOBufferStateMachine.buffer self) as [b0 |] eqn:Hbuf.
    + destruct (FIFOBuffer.remove b0) as [[x b1] |] eqn:Hrem; [| discriminate].
      simpl in Hstep. injection Hstep as <-. simpl. intros b [= <-].
      rewrite (remove_max_length _ _ _ Hrem). apply Hcap. reflexivity.
    + injection Hstep as <-. rewrite Hbuf. discriminate.
  - unfold FIFOBufferStateMachine.peek_item in Hstep.
    destruct (FIFOBufferStateMachine.buffer self) as [b0 |] eqn:Hbuf.
    + destruct (FIFOBuffer.peek b0); [| discriminate].
      simpl in Hstep. injection Hstep as <-. rewrite Hbuf. exact Hcap.
    + injection Hstep as <-. rewrite Hbuf. discriminate.
  - unfold FIFOBufferStateMachine.check_empty in Hstep.
    destruct (FIFOBufferStateMachine.buffer self) eqn:Hbuf;
      injection Hstep as <-; rewrite Hbuf; [exact Hcap | discriminate].
  - unfold FIFOBufferStateMachine.check_full in Hstep.
    destruct (FIFOBufferStateMachine.buffer self) eqn:Hbuf;
      injection Hstep as <-; rewrite Hbuf; [exact Hcap | discriminate].
  - unfold FIFOBufferStateMachine.check_size in Hstep.
    destruct (FIFOBufferStateMachine.buffer self) eqn:Hbuf;
      injection Hstep as <-; rewrite Hbuf; [exact Hcap | discriminate].
Qed.

(** X14. In every state a run of the correct machine reaches, a buffer it
    holds has the capacity the machine recorded in [max_length], that
    capacity is one the strategy draws (1 to 10), and the buffer holds
    between 0 and [max_length] items, so never more than ten; without a
    buffer the recorded [max_length] is still 0. *)
Theorem X14_correct_machine_capacity
    (rules : list FIFOBufferStateMachine.rule) (self : FIFOBufferStateMachine.t) :
  trace_correct rules self →
  (∀ b, FIFOBufferStateMachine.buffer self = Some b →
        FIFOBufferStateMachine.max_length self = FIFOBuffer.max_length b ∧
        1 <= FIFOBuffer.max_length b <= 10 ∧
        0 <= FIFOBuffer.size b <= FIFOBufferStateMachine.max_length self ∧
        FIFOBuffer.size b <= 10) ∧
  (FIFOBufferStateMachine.buffer self = None →
     FIFOBufferStateMachine.max_length self = 0).
Proof.
  intros Htrace.
  assert (Hcap : ∀ b, FIFOBufferStateMachine.buffer self = Some b →
                      1 <= FIFOBuffer.max_length b <= 10).
  { clear -Htrace. induction Htrace as [| rules r self self' _ IH Helig Hstep].
    - intros b Hb. discriminate.
    - exact (step_capacity_drawn self self' r IH Helig Hstep). }
  pose proof (trace_machine_ok rules self Htrace) as Hok.
  unfold machine_ok in Hok. split.
  - intros b Hb. rewrite Hb in Hok. destruct Hok as ([_ Hsize] & Heq & _).
    specialize (Hcap b Hb). rewrite Heq. lia.
  - intros Hb. rewrite Hb in Hok. destruct Hok as [-> _]. reflexivity.
Qed.

Lemma X14_correct_machine_capacity_witness :
  (∀ b, FIFOBufferStateMachine.buffer
          (FIFOBufferStateMachine.Build (Some (FIFOBuffer.Build 2 [5])) 2) = Some b →
        2 = FIFOBuffer.max_length b ∧
        1 <= FIFOBuffer.max_length b <= 10 ∧
        0 <= FIFOBuffer.size b <= 2 ∧
        FIFOBuffer.size b <= 10) ∧
  (FIFOBufferStateMachine.buffer
     (FIFOBufferStateMachine.Build (Some (FIFOBuffer.Build 2 [5])) 2) = None →
   2 = 0).
Proof.
  apply (X14_correct_machine_capacity
           [FIFOBufferStateMachine.InitializeBuffer 2; FIFOBufferStateMachine.AddItem 5]).
  apply (trace_snoc [_] _ (FIFOBufferStateMachine.Build (Some (FIFOBuffer.Build 2 [])) 2));
    [| reflexivity | reflexivity].
  apply (trace_snoc [] _ FIFOBufferStateMachine.__init__);
    [| reflexivity | reflexivity].
  apply trace_nil.
Defined.

(** * Properties of the greeting and its test *)







(** The rendering on a concrete person, minus sign included. *)
Example greet_person_negative_age :
  class_st.greet_person (class_st.Build (class_st.lit "Bob") (-5))
  = class_st.lit "Hello Bob, you are -5 years old!".
Proof. vm_compute. reflexivity. Qed.
